(** * Two-time-pad recovery (project1.py): a shallow embedding

    The Python program is embedded function by function.  Conventions:

    - a [bytes] / [bytearray] value is a [list Z] (Python ints, each in
      [0, 255] for well-formed inputs, see [is_bytes]);
    - a Python [str] is a [list Z] of Unicode code points where the text is
      produced by decoding bytes, and a Rocq [string] where it is a CSV cell
      or a dictionary key;
    - a Python [float] is idealised as a real number ([R]): sums, quotients,
      [math.log] and [math.exp] are the exact ones, and no NaN or infinity
      exists; what the table pass does with a cell that [float] reads as
      [inf] is evaluated apart, on binary64 values, in module [Ieee];
    - a [dict] is an association list in insertion order (the order in which
      [items()] iterates);
    - an exception is the [Error] case of [result];
    - the global [random] generator is an explicit state [rng] threaded
      through the search. *)

From Stdlib Require Import String Ascii.
From Stdlib Require Import ZArith List Bool Lia Reals Lra Psatz.
From Stdlib Require Floats.PrimFloat.

#[local] Set Warnings "-inexact-float".
Import ListNotations.

Local Open Scope Z_scope.

(** ** Exceptions *)

Inductive exn : Set :=
| ValueError
| IndexError
| KeyError.

Inductive result (A : Type) : Type :=
| OK (a : A)
| Error (e : exn).

Arguments OK {A} a.
Arguments Error {A} e.

Definition bind {A B : Type} (m : result A) (f : A -> result B) : result B :=
  match m with
  | OK a => f a
  | Error e => Error e
  end.

Notation "x <- m ;; k" := (bind m (fun x => k))
  (at level 61, m at next level, right associativity).
Notation "' pat <- m ;; k" := (bind m (fun x => match x with pat => k end))
  (at level 61, pat pattern, m at next level, right associativity).

(** ** Byte sequences *)

Definition is_byte (b : Z) : Prop := 0 <= b < 256.

Definition is_bytes (bs : list Z) : Prop := Forall is_byte bs.

(** [zip(b1, b2)] stops at the end of the shorter argument. *)
Fixpoint zip {A B : Type} (l1 : list A) (l2 : list B) : list (A * B) :=
  match l1, l2 with
  | a :: l1', b :: l2' => (a, b) :: zip l1' l2'
  | _, _ => []
  end.

(** [def xor_bytes(b1, b2): return bytes([a ^ b for a, b in zip(b1, b2)])] *)
Definition xor_bytes (b1 b2 : list Z) : list Z :=
  map (fun ab => Z.lxor (fst ab) (snd ab)) (zip b1 b2).

(** [b[i]] and [b[i] = v] for [0 <= i]; out of range raises [IndexError]. *)
Definition getitem {A : Type} (l : list A) (i : Z) : result A :=
  if i <? 0 then Error IndexError
  else match nth_error l (Z.to_nat i) with
       | Some a => OK a
       | None => Error IndexError
       end.

Fixpoint list_set {A : Type} (l : list A) (n : nat) (v : A) : list A :=
  match l, n with
  | [], _ => []
  | _ :: l', O => v :: l'
  | a :: l', S n' => a :: list_set l' n' v
  end.

Definition setitem {A : Type} (l : list A) (i : Z) (v : A) : result (list A) :=
  if i <? 0 then Error IndexError
  else if (Z.to_nat i <? length l)%nat then OK (list_set l (Z.to_nat i) v)
  else Error IndexError.

(** ** Dictionaries

    A [dict] keeps its items in insertion order; assigning to a key that is
    already present replaces the value in place. *)

Section Dict.
Context {K V : Type}.
Variable eqb : K -> K -> bool.

Definition dict : Type := list (K * V).

Fixpoint dict_get (d : dict) (k : K) : option V :=
  match d with
  | [] => None
  | (k', v) :: d' => if eqb k k' then Some v else dict_get d' k
  end.

(** [d.get(k, default)] *)
Definition dict_get_default (d : dict) (k : K) (default : V) : V :=
  match dict_get d k with
  | Some v => v
  | None => default
  end.

(** [d[k]] *)
Definition dict_getitem (d : dict) (k : K) : result V :=
  match dict_get d k with
  | Some v => OK v
  | None => Error KeyError
  end.

(** [d[k] = v] *)
Fixpoint dict_set (d : dict) (k : K) (v : V) : dict :=
  match d with
  | [] => [(k, v)]
  | (k', v') :: d' =>
      if eqb k k' then (k', v) :: d' else (k', v') :: dict_set d' k v
  end.
End Dict.

Arguments dict : clear implicits.

Definition pair_eqb (x y : string * string) : bool :=
  String.eqb (fst x) (fst y) && String.eqb (snd x) (snd y).

(** ** Python built-ins that the program calls

    [float(v)] on a CSV cell with a finite value ([None] when it raises
    [ValueError]; the cells [inf] and [nan], which [float] also accepts,
    have no value in [R] and are treated in module [Ieee]), [str.strip],
    and the lower-casing of one non-ASCII code point (which may depend on
    the code points before and after it). *)

Class PyRuntime : Type := {
  float_of_string : string -> option R;
  str_strip : string -> string;
  lower_nonascii : list Z -> Z -> list Z -> list Z
}.

(** ** The random generator

    The generator is a source of raw words and a read position.  Each of
    [randrange], [choice] and [random] consumes one word. *)

Record rng : Type := mkRng {
  src : nat -> N;
  pos : nat
}.

Definition next_raw (g : rng) : Z * rng :=
  (Z.of_N (src g (pos g)), mkRng (src g) (S (pos g))).

(** [random.randrange(k)]: [ValueError] on an empty range. *)
Definition randrange (k : Z) (g : rng) : result (Z * rng) :=
  if k <=? 0 then Error ValueError
  else let (n, g') := next_raw g in OK (n mod k, g').

(** [random.choice(seq)]: [IndexError] on an empty sequence. *)
Definition choice (seq : list Z) (g : rng) : result (Z * rng) :=
  match seq with
  | [] => Error IndexError
  | c :: _ =>
      let (n, g') := next_raw g in
      OK (nth (Z.to_nat (n mod Z.of_nat (length seq))) seq c, g')
  end.

(** [random.random()]: a float in [[0, 1)]. *)
Definition random (g : rng) : R * rng :=
  let (n, g') := next_raw g in
  ((IZR (n mod 2 ^ 53) / IZR (2 ^ 53))%R, g').

(** ** load_ftable

    The CSV reader is outside the embedding: [load_ftable] starts from the
    list of rows it produced, each row a list of cells. *)

Definition floor_prob : R := 1e-9%R.

Section LoadFtable.
Context {rt : PyRuntime}.

(** The body of the inner loop of the first pass:
    [try: counts[(a, header[i])] = float(v)
     except: counts[(a, header[i])] = 0.0].
    The right-hand side is evaluated before [header[i]]; an [IndexError]
    from [header[i]] inside [try] is caught too, and raised again by the
    handler, which evaluates [header[i]] itself. *)
Definition except_store (header : list string) (a : string)
    (counts : dict (string * string) R) (i : nat)
  : result (dict (string * string) R) :=
  match nth_error header i with
  | Some b => OK (dict_set pair_eqb counts (a, b) 0%R)
  | None => Error IndexError
  end.

Definition store_cell (header : list string) (a : string)
    (counts : dict (string * string) R) (i : nat) (v : string)
  : result (dict (string * string) R) :=
  match float_of_string v with
  | Some x =>
      match nth_error header i with
      | Some b => OK (dict_set pair_eqb counts (a, b) x)
      | None => except_store header a counts i
      end
  | None => except_store header a counts i
  end.

(** [for i, v in enumerate(r[1:])], from index [i] on. *)
Fixpoint store_cells (header : list string) (a : string)
    (counts : dict (string * string) R) (i : nat) (cells : list string)
  : result (dict (string * string) R) :=
  match cells with
  | [] => OK counts
  | v :: cells' =>
      counts' <- store_cell header a counts i v ;;
      store_cells header a counts' (S i) cells'
  end.

(** One turn of [for r in rows[1:]]; [r[0]] raises on an empty row. *)
Definition store_row (header : list string)
    (counts : dict (string * string) R) (r : list string)
  : result (dict (string * string) R) :=
  match r with
  | [] => Error IndexError
  | r0 :: cells => store_cells header (str_strip r0) counts 0 cells
  end.

Fixpoint store_rows (header : list string)
    (counts : dict (string * string) R) (rows : list (list string))
  : result (dict (string * string) R) :=
  match rows with
  | [] => OK counts
  | r :: rows' =>
      counts' <- store_row header counts r ;;
      store_rows header counts' rows'
  end.

(** [counts] as built from the rows by the first pass. *)
Definition build_counts (rows : list (list string))
  : result (dict (string * string) R) :=
  match rows with
  | [] => Error IndexError
  | row0 :: data => store_rows (tl row0) [] data
  end.

(** [totals[a] = totals.get(a, 0.0) + v] for the item [((a, b), v)]. *)
Definition totals_step (totals : dict string R)
    (item : (string * string) * R) : dict string R :=
  let a := fst (fst item) in
  dict_set String.eqb totals a
    (dict_get_default String.eqb totals a 0 + snd item)%R.

(** [for (a, b), v in counts.items(): ...] *)
Definition build_totals (counts : dict (string * string) R) : dict string R :=
  fold_left totals_step counts [].

(** [prob = floor if tot <= 0 else max(v / tot, floor)] *)
Definition prob_of (v tot : R) : R :=
  if Rle_dec tot 0 then floor_prob else Rmax (v / tot) floor_prob.

(** The second pass, started from the dictionary [logp]. *)
Fixpoint build_logp (totals : dict string R)
    (items : dict (string * string) R) (logp : dict (string * string) R)
  : result (dict (string * string) R) :=
  match items with
  | [] => OK logp
  | (ab, v) :: items' =>
      tot <- dict_getitem String.eqb totals (fst ab) ;;
      build_logp totals items'
        (dict_set pair_eqb logp ab (ln (prob_of v tot)))
  end.

Definition load_ftable (rows : list (list string))
  : result (dict (string * string) R) :=
  counts <- build_counts rows ;;
  build_logp (build_totals counts) counts [].
End LoadFtable.

(** ** Scoring *)

Definition chr (c : Z) : string :=
  String (ascii_of_N (Z.to_N c)) EmptyString.

Definition byte_to_char (b : Z) : option string :=
  if b =? 32 then Some " "%string
  else if (65 <=? b) && (b <=? 90) then Some (chr b)
  else if (97 <=? b) && (b <=? 122) then Some (chr (b - 32))
  else None.

Definition penalty : R := (-100)%R.

(** [logp.get((a, c), math.log(1e-9))] *)
Definition logProb (logp : dict (string * string) R) (a c : string) : R :=
  dict_get_default pair_eqb logp (a, c) (ln 1e-9).

(** One turn of the loop of [score_bigram].  The loop runs [i] over
    [range(len(b) - 1)], so [b[i]] and [b[i + 1]] are in range. *)
Definition bigram_term (logp : dict (string * string) R) (b : list Z)
    (i : nat) : R :=
  match byte_to_char (nth i b 0), byte_to_char (nth (i + 1) b 0) with
  | Some a, Some c => logProb logp a c
  | _, _ => penalty
  end.

Definition score_bigram (b : list Z) (logp : dict (string * string) R) : R :=
  fold_left (fun s i => (s + bigram_term logp b i)%R)
    (seq 0 (length b - 1)) 0%R.

(** ** Text: decoding, lower-casing, counting *)

Definition codes (s : string) : list Z :=
  map (fun a => Z.of_N (N_of_ascii a)) (list_ascii_of_string s).

Definition COMMON_WORDS : list (list Z) :=
  map codes
    ["the"; "and"; "you"; "that"; "was"; "this"; "with"; "for"; "have"; "not";
     "are"; "but"; "had"; "they"; "his"; "from"; "she"; "which"; "will"; "one"
    ]%string.

Definition is_cont (b : Z) : bool := (128 <=? b) && (b <=? 191).

Definition cp2 (c1 c2 : Z) : Z :=
  Z.shiftl (Z.land c1 31) 6 + Z.land c2 63.

Definition cp3 (c1 c2 c3 : Z) : Z :=
  Z.shiftl (Z.land c1 15) 12 + Z.shiftl (Z.land c2 63) 6 + Z.land c3 63.

Definition cp4 (c1 c2 c3 c4 : Z) : Z :=
  Z.shiftl (Z.land c1 7) 18 + Z.shiftl (Z.land c2 63) 12
  + Z.shiftl (Z.land c3 63) 6 + Z.land c4 63.

(** [bytes.decode('utf-8', errors='ignore')]: a byte that cannot start a
    sequence is dropped; a sequence broken by a byte that cannot continue it
    is dropped up to that byte, where decoding resumes; a sequence cut by
    the end of the input is dropped. *)
Fixpoint utf8_decode_ignore (s : list Z) : list Z :=
  match s with
  | [] => []
  | ch :: r1 =>
      if ch <? 128 then ch :: utf8_decode_ignore r1
      else if ch <? 194 then utf8_decode_ignore r1
      else if ch <? 224 then
        match r1 with
        | [] => []
        | ch2 :: r2 =>
            if is_cont ch2 then cp2 ch ch2 :: utf8_decode_ignore r2
            else utf8_decode_ignore r1
        end
      else if ch <? 240 then
        match r1 with
        | [] => []
        | ch2 :: r2 =>
            if negb (is_cont ch2)
               || (if ch2 <? 160 then ch =? 224 else ch =? 237)
            then utf8_decode_ignore r1
            else
              match r2 with
              | [] => []
              | ch3 :: r3 =>
                  if is_cont ch3 then cp3 ch ch2 ch3 :: utf8_decode_ignore r3
                  else utf8_decode_ignore r2
              end
        end
      else if ch <? 245 then
        match r1 with
        | [] => []
        | ch2 :: r2 =>
            if negb (is_cont ch2)
               || (if ch2 <? 144 then ch =? 240 else ch =? 244)
            then utf8_decode_ignore r1
            else
              match r2 with
              | [] => []
              | ch3 :: r3 =>
                  if negb (is_cont ch3) then utf8_decode_ignore r2
                  else
                    match r3 with
                    | [] => []
                    | ch4 :: r4 =>
                        if is_cont ch4
                        then cp4 ch ch2 ch3 ch4 :: utf8_decode_ignore r4
                        else utf8_decode_ignore r3
                    end
              end
        end
      else utf8_decode_ignore r1
  end.

Section Text.
Context {rt : PyRuntime}.

(** Lower-casing of the code point [c] between [before] (nearest first)
    and [after]. *)
Definition lower_cp (before : list Z) (c : Z) (after : list Z) : list Z :=
  if (65 <=? c) && (c <=? 90) then [c + 32]
  else if c <? 128 then [c]
  else lower_nonascii before c after.

Fixpoint str_lower_from (before text : list Z) : list Z :=
  match text with
  | [] => []
  | c :: text' => lower_cp before c text' ++ str_lower_from (c :: before) text'
  end.

(** [text.lower()] *)
Definition str_lower (text : list Z) : list Z := str_lower_from [] text.
End Text.

Fixpoint starts_with (w t : list Z) : bool :=
  match w, t with
  | [], _ => true
  | c :: w', d :: t' => (c =? d) && starts_with w' t'
  | _ :: _, [] => false
  end.

(** Occurrences of [w] in [t] from left to right, none overlapping another:
    after a match the next [skip] positions are passed over. *)
Fixpoint count_from (w : list Z) (skip : nat) (t : list Z) : Z :=
  match t with
  | [] => 0
  | _ :: t' =>
      match skip with
      | S n => count_from w n t'
      | O =>
          if starts_with w t then 1 + count_from w (length w - 1) t'
          else count_from w 0 t'
      end
  end.

(** [text.count(w)] *)
Definition str_count (t w : list Z) : Z :=
  match w with
  | [] => Z.of_nat (length t) + 1
  | _ :: _ => count_from w 0 t
  end.

Section Search.
Context {rt : PyRuntime}.

Definition word_bonus_score (text : list Z) : Z :=
  let text_lower := str_lower text in
  fold_left (fun bonus word => bonus + str_count text_lower word * 10000)
    COMMON_WORDS 0.

(** Decoding with [errors='ignore'] does not raise, so the handler of the
    [try] in [combined_score] is never entered. *)
Definition combined_score (candidate_bytes : list Z)
    (logp : dict (string * string) R) : R :=
  let base_score := score_bigram candidate_bytes logp in
  let as_text := utf8_decode_ignore candidate_bytes in
  let bonus := word_bonus_score as_text in
  (base_score + IZR bonus)%R.

Definition ALPHABET : list Z :=
  codes " ABCDEFGHIJKLMNOPQRSTUVWXYZabcdefghijklmnopqrstuvwxyz".

(** [combined_score(p1, logp) + combined_score(xor_bytes(p1, X), logp)] *)
Definition pair_score (p1 X : list Z) (logp : dict (string * string) R) : R :=
  (combined_score p1 logp + combined_score (xor_bytes p1 X) logp)%R.

(** What outlives a restart: the generator and the best-ever record. *)
Record run_state : Type := mkRun {
  gen : rng;
  best_pair : list Z * list Z;
  best_score : R
}.

(** The state inside a restart. *)
Record climb_state : Type := mkClimb {
  run : run_state;
  p1 : list Z;
  cur_score : R
}.

(** The accepting branch: [cur_score = new_score], and the best-ever
    record is replaced when [new_score > best_score]. *)
Definition accept (X : list Z) (g : rng) (p : list Z) (new_score : R)
    (st : climb_state) : climb_state :=
  if Rlt_dec (best_score (run st)) new_score
  then mkClimb (mkRun g (p, xor_bytes p X) new_score) p new_score
  else mkClimb (mkRun g (best_pair (run st)) (best_score (run st)))
         p new_score.

(** [T = max(0.01, 1.0 - it / iterations)] *)
Definition temperature (it iterations : nat) : R :=
  Rmax 0.01 (1 - INR it / INR iterations).

(** The body of [for it in range(iterations)].  [or] evaluates its right
    operand, and so draws from the generator, only when [delta >= 0]
    fails. *)
Definition iteration (X : list Z) (logp : dict (string * string) R)
    (iterations it : nat) (st : climb_state) : result climb_state :=
  '(i, g1) <- randrange (Z.of_nat (length X)) (gen (run st)) ;;
  old <- getitem (p1 st) i ;;
  '(proposal, g2) <- choice ALPHABET g1 ;;
  p1' <- setitem (p1 st) i proposal ;;
  let new_score := pair_score p1' X logp in
  let delta := (new_score - cur_score st)%R in
  let T := temperature it iterations in
  if Rle_dec 0 delta then OK (accept X g2 p1' new_score st)
  else
    let (u, g3) := random g2 in
    if Rlt_dec u (exp (delta / T)) then OK (accept X g3 p1' new_score st)
    else
      p1'' <- setitem p1' i old ;;
      OK (mkClimb (mkRun g3 (best_pair (run st)) (best_score (run st)))
            p1'' (cur_score st)).

(** [for j in range(n)] with the loop variable starting at [start]. *)
Fixpoint for_range {St : Type} (body : nat -> St -> result St)
    (start n : nat) (s : St) : result St :=
  match n with
  | O => OK s
  | S n' => s' <- body start s ;; for_range body (S start) n' s'
  end.

(** The start of a restart: a fresh all-space candidate and its score. *)
Definition begin_restart (X : list Z) (logp : dict (string * string) R)
    (rs : run_state) : climb_state :=
  let p := repeat 32 (length X) in
  mkClimb rs p (pair_score p X logp).

(** The body of [for r in range(restarts)]. *)
Definition restart (X : list Z) (logp : dict (string * string) R)
    (iterations : nat) (r : nat) (rs : run_state) : result run_state :=
  st <- for_range (iteration X logp iterations) 0 iterations
          (begin_restart X logp rs) ;;
  OK (run st).

Definition initial_best_score : R := (- 1e18)%R.

Definition initial_run (g : rng) : run_state :=
  mkRun g ([], []) initial_best_score.

Definition hillclimb (X : list Z) (logp : dict (string * string) R)
    (restarts iterations : nat) (g : rng)
  : result ((list Z * list Z) * R) :=
  rs <- for_range (restart X logp iterations) 0 restarts (initial_run g) ;;
  OK (best_pair rs, best_score rs).
End Search.

(** ** Reference definitions used in the statements *)

(** The term one adjacent pair of bytes contributes to the bigram score. *)
Definition pair_term (logp : dict (string * string) R) (x y : Z) : R :=
  match byte_to_char x, byte_to_char y with
  | Some a, Some c => logProb logp a c
  | _, _ => penalty
  end.

(** The bigram score as a sum over the adjacent pairs of the sequence. *)
Fixpoint bigram_sum (logp : dict (string * string) R) (b : list Z) : R :=
  match b with
  | x :: (y :: _) as b' => (pair_term logp x y + bigram_sum logp b')%R
  | _ => 0%R
  end.

(** The sum of the counts stored under row character [a]. *)
Fixpoint row_total (counts : dict (string * string) R) (a : string) : R :=
  match counts with
  | [] => 0%R
  | (k, v) :: counts' =>
      if String.eqb (fst k) a then (v + row_total counts' a)%R
      else row_total counts' a
  end.

(** The count a cell contributes: its numeric value, or zero. *)
Definition cell_count {rt : PyRuntime} (v : string) : R :=
  match float_of_string v with
  | Some x => x
  | None => 0%R
  end.

(** The table has a header row, every later row has a first cell, and no
    row has more count cells than the header has column characters. *)
Definition table_shape_ok (rows : list (list string)) : Prop :=
  match rows with
  | [] => False
  | row0 :: data =>
      Forall (fun r => r <> [] /\ (length (tl r) <= length (tl row0))%nat) data
  end.

(** Lower-casing a non-ASCII code point yields no ASCII lower-case letter
    other than [i] (from U+0130) and [k] (from U+212A). *)
Definition lower_table_ok {rt : PyRuntime} : Prop :=
  forall before c after x,
    128 <= c -> In x (lower_nonascii before c after) ->
    97 <= x <= 122 -> x = 105 \/ x = 107.

(** Two generators that deliver the same words from their positions on. *)
Definition same_stream (g1 g2 : rng) : Prop :=
  forall n, src g1 (pos g1 + n) = src g2 (pos g2 + n).

(** The best-ever record is either the initial placeholder or a pair that
    was recorded by the search, with a score above the initial one. *)
Definition best_recorded (X : list Z) (rs : run_state) : Prop :=
  (initial_best_score < best_score rs)%R /\
  length (fst (best_pair rs)) = length X /\
  length (snd (best_pair rs)) = length X /\
  xor_bytes (fst (best_pair rs)) (snd (best_pair rs)) = X.

Definition best_ok (X : list Z) (rs : run_state) : Prop :=
  (best_score rs = initial_best_score /\ best_pair rs = ([], [])) \/
  best_recorded X rs.

(** Inside a restart the candidate has the length of the difference array. *)
Definition climb_inv (X : list Z) (st : climb_state) : Prop :=
  length (p1 st) = length X /\ best_ok X (run st).

Definition draw_sim (d1 d2 : Z * rng) : Prop :=
  fst d1 = fst d2 /\ same_stream (snd d1) (snd d2).

(** States that differ at most in the representation of the generator. *)
Definition run_sim (r1 r2 : run_state) : Prop :=
  same_stream (gen r1) (gen r2) /\
  best_pair r1 = best_pair r2 /\ best_score r1 = best_score r2.

Definition climb_sim (s1 s2 : climb_state) : Prop :=
  run_sim (run s1) (run s2) /\
  p1 s1 = p1 s2 /\ cur_score s1 = cur_score s2.

Definition result_sim {A : Type} (sim : A -> A -> Prop)
    (r1 r2 : result A) : Prop :=
  match r1, r2 with
  | OK a1, OK a2 => sim a1 a2
  | Error e1, Error e2 => e1 = e2
  | _, _ => False
  end.

(** The condition under which the search keeps a proposed mutation. *)
Definition accepts (delta T u : R) : Prop :=
  (0 <= delta)%R \/ (u < exp (delta / T))%R.

(** ** A concrete runtime and generator, for evaluating the definitions *)

Fixpoint digits_value (acc : Z) (s : string) : option Z :=
  match s with
  | EmptyString => Some acc
  | String c s' =>
      let n := Z.of_N (N_of_ascii c) in
      if (48 <=? n) && (n <=? 57) then digits_value (10 * acc + (n - 48)) s'
      else None
  end.

Definition demo_float (s : string) : option R :=
  match s with
  | EmptyString => None
  | _ => option_map IZR (digits_value 0 s)
  end.

Definition demo_lower (before : list Z) (c : Z) (after : list Z) : list Z :=
  if c =? 304 then [105; 775]
  else if c =? 8490 then [107]
  else [c].

Definition demo_runtime : PyRuntime :=
  {| float_of_string := demo_float;
     str_strip := fun s => s;
     lower_nonascii := demo_lower |}.

Definition demo_rng : rng := mkRng (fun n => N.of_nat (7 * n + 3)) 0.

Definition demo_rows : list (list string) :=
  [ [""; "A"; "B"];
    ["A"; "3"; "1"];
    ["B"; "x"; "0"] ]%string.

(** ** More reference definitions *)

(** The upper-case form of an ASCII letter byte; other bytes are kept. *)
Definition to_upper (b : Z) : Z :=
  if (97 <=? b) && (b <=? 122) then b - 32 else b.

Definition is_ascii (c : Z) : Prop := 0 <= c < 128.

(** The candidate is made of alphabet bytes only. *)
Definition in_alphabet (p : list Z) : Prop := Forall (fun b => In b ALPHABET) p.

(** The row character of a data row. *)
Definition row_key {rt : PyRuntime} (r : list string) : string :=
  str_strip (hd ""%string r).

(** The items row [r] contributes to [counts], in column order, and the
    items of a whole table, in row order. *)
Definition row_items {rt : PyRuntime} (header : list string)
    (r : list string) : dict (string * string) R :=
  map (fun bv => ((row_key r, fst bv), cell_count (snd bv)))
    (zip header (tl r)).

Definition table_items {rt : PyRuntime} (header : list string)
    (data : list (list string)) : dict (string * string) R :=
  flat_map (row_items header) data.

(** The sum of the counts of a list of cells. *)
Definition cells_sum {rt : PyRuntime} (cells : list string) : R :=
  fold_right (fun v s => (cell_count v + s)%R) 0%R cells.

(** The lower-case form of an ASCII letter byte; other bytes are kept. *)
Definition to_lower (b : Z) : Z :=
  if (65 <=? b) && (b <=? 90) then b + 32 else b.

(** The candidate has the length of [X], is made of alphabet bytes, and
    [cur_score] is its score. *)
Definition candidate_consistent {rt : PyRuntime} (X : list Z)
    (logp : dict (string * string) R) (st : climb_state) : Prop :=
  length (p1 st) = length X /\ in_alphabet (p1 st) /\
  cur_score st = pair_score (p1 st) X logp.

(** The best-ever record is the placeholder, or an alphabet candidate with
    the plaintext derived from it and their score. *)
Definition best_consistent {rt : PyRuntime} (X : list Z)
    (logp : dict (string * string) R) (rs : run_state) : Prop :=
  (best_score rs = initial_best_score /\ best_pair rs = ([], [])) \/
  (length (fst (best_pair rs)) = length X /\
   in_alphabet (fst (best_pair rs)) /\
   snd (best_pair rs) = xor_bytes (fst (best_pair rs)) X /\
   best_score rs = pair_score (fst (best_pair rs)) X logp).

(** The generator of [g'] is that of [g] moved on by between [lo] and [hi]
    words. *)
Definition advanced (lo hi : nat) (g g' : rng) : Prop :=
  src g' = src g /\ (pos g + lo <= pos g' <= pos g + hi)%nat.

(** [X = xor_bytes(c1, c2)] for the two halves of the 2048-byte input. *)
Definition difference_array (data : list Z) : list Z :=
  xor_bytes (firstn 1024 data) (skipn 1024 data).

(** ** The driver

    The [__main__] block between reading its two input files and writing
    its output file.  [data] is the content of [ciphertexts.bin] and [rows]
    the parsed [ftable2.csv]; the two halves written to [file1.bin] and
    [file2.bin] are read back unchanged. *)

Inductive outcome : Type :=
| Done (best : (list Z * list Z) * R)
| AssertionFailed
| Exit (code : Z)
| Raised (e : exn).

Definition main {rt : PyRuntime} (data : list Z) (rows : list (list string))
    (g : rng) : outcome :=
  if negb (length data =? 2048)%nat then AssertionFailed
  else
    let c1 := firstn 1024 data in
    let c2 := skipn 1024 data in
    if negb (length c1 =? length c2)%nat then Exit 1
    else
      let X := xor_bytes c1 c2 in
      match load_ftable rows with
      | Error e => Raised e
      | OK logp =>
          match hillclimb X logp 20 3000 g with
          | Error e => Raised e
          | OK best => Done best
          end
      end.

(** ** The cells behind the table

    The count cells of the data rows, each with the key it is stored
    under, in the order in which the first pass visits them; and the last
    cell visited under a key, the one whose count the key keeps. *)
Definition keyed_cells {rt : PyRuntime} (header : list string)
    (data : list (list string)) : list ((string * string) * string) :=
  flat_map
    (fun r => map (fun bv => ((row_key r, fst bv), snd bv))
                (zip header (tl r)))
    data.

Fixpoint last_cell (k : string * string)
    (cells : list ((string * string) * string)) : option string :=
  match cells with
  | [] => None
  | (k', v) :: cells' =>
      match last_cell k cells' with
      | Some v' => Some v'
      | None => if pair_eqb k k' then Some v else None
      end
  end.

(** ** Lines 56 and 61 on binary64 values

    The rest of this development reads a Python [float] as a real number,
    which is what a cell with a finite count gives.  [float(v)] also
    accepts the cells [inf] and [nan]; what the second pass of
    [load_ftable] computes from such a cell is evaluated here on IEEE 754
    binary64 values. *)
Module Ieee.
Import PrimFloat.

(** [max(a, b)] keeps its first argument unless the second is greater. *)
Definition py_max (a b : float) : float :=
  if (a <? b)%float then b else a.

(** [totals[a] = totals.get(a, 0.0) + v] over the counts of a row. *)
Definition row_total (vs : list float) : float :=
  fold_left PrimFloat.add vs 0%float.

(** [prob = floor if tot <= 0 else max(v / tot, floor)] *)
Definition prob_of (v tot : float) : float :=
  if (tot <=? 0)%float then 1e-9%float
  else py_max (v / tot)%float 1e-9%float.

(** The combined score of a two-byte sequence: the loop of [score_bigram]
    adds its single term to [0.0], and the word bonus is added to that. *)
Definition score_of_pair (term bonus : float) : float :=
  ((0 + term) + bonus)%float.
End Ieee.

(** * Properties *)

(** ** Dictionaries *)

Lemma pair_eqb_eq (x y : string * string) : pair_eqb x y = true <-> x = y.
Proof.
  destruct x as [x1 x2], y as [y1 y2]; unfold pair_eqb; cbn.
  rewrite andb_true_iff, !String.eqb_eq.
  split; [intros [-> ->]; reflexivity | intros [= -> ->]; auto].
Qed.

Lemma pair_eqb_refl (x : string * string) : pair_eqb x x = true.
Proof. apply pair_eqb_eq; reflexivity. Qed.

Lemma pair_eqb_neq (x y : string * string) : x <> y -> pair_eqb x y = false.
Proof.
  intros H; destruct (pair_eqb x y) eqn:E; [|reflexivity].
  apply pair_eqb_eq in E; contradiction.
Qed.

Section DictFacts.
Context {K V : Type}.
Variable eqb : K -> K -> bool.
Hypothesis eqb_eq : forall x y, eqb x y = true <-> x = y.

Lemma dict_get_None (d : dict K V) (k : K) :
  dict_get eqb d k = None <-> ~ In k (map fst d).
Proof.
  induction d as [|[k' v] d IH]; cbn.
  - tauto.
  - destruct (eqb k k') eqn:E.
    + apply eqb_eq in E; subst; split; [discriminate | tauto].
    + rewrite IH; split; [|tauto].
      intros Hn [->|Hin]; [|tauto].
      assert (eqb k k = true) by (apply eqb_eq; reflexivity); congruence.
Qed.

Lemma dict_get_Some_In (d : dict K V) (k : K) (v : V) :
  dict_get eqb d k = Some v -> In (k, v) d.
Proof.
  induction d as [|[k' v'] d IH]; cbn; [discriminate|].
  destruct (eqb k k') eqn:E.
  - apply eqb_eq in E; subst; intros [= ->]; auto.
  - auto.
Qed.

Lemma dict_get_set_same (d : dict K V) (k : K) (v : V) :
  dict_get eqb (dict_set eqb d k v) k = Some v.
Proof.
  assert (Hr : eqb k k = true) by (apply eqb_eq; reflexivity).
  induction d as [|[k' v'] d IH]; cbn.
  - rewrite Hr; reflexivity.
  - destruct (eqb k k') eqn:E; cbn; rewrite E; auto.
Qed.

Lemma dict_get_set_other (d : dict K V) (k k0 : K) (v : V) :
  k0 <> k -> dict_get eqb (dict_set eqb d k v) k0 = dict_get eqb d k0.
Proof.
  intros Hne.
  assert (Hf : eqb k0 k = false).
  { destruct (eqb k0 k) eqn:E; [apply eqb_eq in E; contradiction | auto]. }
  induction d as [|[k' v'] d IH]; cbn.
  - rewrite Hf; reflexivity.
  - destruct (eqb k k') eqn:E; cbn.
    + apply eqb_eq in E; subst k'. rewrite Hf; reflexivity.
    + destruct (eqb k0 k'); auto.
Qed.

Lemma dict_set_keys_present (d : dict K V) (k : K) (v : V) :
  In k (map fst d) -> map fst (dict_set eqb d k v) = map fst d.
Proof.
  induction d as [|[k' v'] d IH]; cbn; [tauto|].
  intros Hin. destruct (eqb k k') eqn:E; cbn; [reflexivity|].
  f_equal. apply IH. destruct Hin as [->|]; [|assumption].
  assert (eqb k k = true) by (apply eqb_eq; reflexivity); congruence.
Qed.

Lemma dict_set_keys_absent (d : dict K V) (k : K) (v : V) :
  ~ In k (map fst d) -> map fst (dict_set eqb d k v) = map fst d ++ [k].
Proof.
  induction d as [|[k' v'] d IH]; cbn; [reflexivity|].
  intros Hn. destruct (eqb k k') eqn:E.
  - apply eqb_eq in E; subst; tauto.
  - cbn; f_equal; apply IH; tauto.
Qed.

Lemma dict_set_NoDup (d : dict K V) (k : K) (v : V) :
  NoDup (map fst d) -> NoDup (map fst (dict_set eqb d k v)).
Proof.
  intros Hnd.
  destruct (dict_get eqb d k) eqn:E.
  - rewrite dict_set_keys_present; [assumption|].
    apply dict_get_Some_In in E.
    apply in_map_iff; exists (k, v0); auto.
  - apply dict_get_None in E. rewrite dict_set_keys_absent by assumption.
    apply NoDup_app; [assumption | constructor; [tauto | constructor] |].
    intros x Hx [<-|[]]; contradiction.
Qed.
End DictFacts.

(** ** xor_bytes *)

Lemma zip_length {A B : Type} (l1 : list A) (l2 : list B) :
  length (zip l1 l2) = Nat.min (length l1) (length l2).
Proof.
  revert l2; induction l1 as [|a l1 IH]; intros [|b l2]; cbn; auto.
Qed.

Lemma xor_bytes_cons (a b : Z) (l1 l2 : list Z) :
  xor_bytes (a :: l1) (b :: l2) = Z.lxor a b :: xor_bytes l1 l2.
Proof. reflexivity. Qed.

Lemma xor_bytes_length (b1 b2 : list Z) :
  length (xor_bytes b1 b2) = Nat.min (length b1) (length b2).
Proof. unfold xor_bytes; rewrite length_map; apply zip_length. Qed.

Lemma xor_bytes_nth_error (b1 b2 : list Z) (i : nat) :
  nth_error (xor_bytes b1 b2) i =
  match nth_error b1 i, nth_error b2 i with
  | Some a, Some b => Some (Z.lxor a b)
  | _, _ => None
  end.
Proof.
  revert b2 i; induction b1 as [|a b1 IH]; intros [|b b2] [|i]; cbn; auto.
  - destruct (nth_error b1 i); reflexivity.
  - apply IH.
Qed.

(** C10: [xor_bytes] is total; its result has the length of the shorter
    argument, and position [i] of the result holds [b1[i] XOR b2[i]] exactly
    when both arguments have a position [i]. *)
Theorem xor_bytes_truncating_xor (b1 b2 : list Z) :
  length (xor_bytes b1 b2) = Nat.min (length b1) (length b2) /\
  forall i : nat,
    nth_error (xor_bytes b1 b2) i =
    match nth_error b1 i, nth_error b2 i with
    | Some a, Some b => Some (Z.lxor a b)
    | _, _ => None
    end.
Proof.
  split; [apply xor_bytes_length | apply xor_bytes_nth_error].
Qed.

(** ** The bigram lookup and the bigram score *)

Lemma ln_floor_gt_penalty : (penalty < ln 1e-9)%R.
Proof.
  unfold penalty.
  assert (H10 : (ln 10 < 10)%R).
  { rewrite <- (ln_exp 10) at 2. apply ln_increasing; [lra|].
    pose proof (exp_ineq1 10 ltac:(lra)); lra. }
  replace (1e-9)%R with (/ (10 ^ 9))%R by lra.
  rewrite ln_Rinv by (apply pow_lt; lra).
  rewrite ln_pow by lra. cbn [INR]. lra.
Qed.

Lemma ln_floor_neg : (ln 1e-9 < 0)%R.
Proof.
  rewrite <- ln_1. apply ln_increasing; lra.
Qed.

(** The lookup [logp.get((a, c), math.log(1e-9))] returns the stored value
    for a pair that is a key of the table, and [log(1e-9)], a negative
    number, for a pair that is not. *)
Lemma logProb_total_with_floor
    (logp : dict (string * string) R) (a c : string) :
  (forall v, dict_get pair_eqb logp (a, c) = Some v -> logProb logp a c = v) /\
  (In (a, c) (map fst logp) ->
     exists v, dict_get pair_eqb logp (a, c) = Some v /\ logProb logp a c = v) /\
  (~ In (a, c) (map fst logp) -> logProb logp a c = ln 1e-9) /\
  (ln 1e-9 < 0)%R.
Proof.
  unfold logProb, dict_get_default. repeat split.
  - intros v ->; reflexivity.
  - intros Hin. destruct (dict_get pair_eqb logp (a, c)) eqn:E.
    + eexists; split; reflexivity.
    + apply (dict_get_None pair_eqb pair_eqb_eq) in E; contradiction.
  - intros Hn. apply (dict_get_None pair_eqb pair_eqb_eq) in Hn.
    rewrite Hn; reflexivity.
  - apply ln_floor_neg.
Qed.

Lemma logProb_total_with_floor_witness :
  logProb [(("A", "B")%string, (-2)%R)] "A" "B" = (-2)%R /\
  logProb [(("A", "B")%string, (-2)%R)] "B" "A" = ln 1e-9.
Proof.
  split.
  - apply (proj1 (logProb_total_with_floor _ "A" "B")%string). reflexivity.
  - apply (proj1 (proj2 (proj2
             (logProb_total_with_floor _ "B" "A")%string))).
    cbn. intros [H|[]]; discriminate H.
Defined.

Lemma bigram_term_app (logp : dict (string * string) R)
    (pre : list Z) (x y : Z) (rest : list Z) :
  bigram_term logp (pre ++ x :: y :: rest) (length pre) = pair_term logp x y.
Proof.
  unfold bigram_term, pair_term.
  rewrite app_nth2 by lia. rewrite Nat.sub_diag. cbn [nth].
  rewrite app_nth2 by lia.
  replace (length pre + 1 - length pre)%nat with 1%nat by lia.
  reflexivity.
Qed.

Lemma score_bigram_loop (logp : dict (string * string) R)
    (b pre : list Z) (acc : R) :
  fold_left (fun s i => (s + bigram_term logp (pre ++ b) i)%R)
    (seq (length pre) (length b - 1)) acc
  = (acc + bigram_sum logp b)%R.
Proof.
  revert pre acc; induction b as [|x b IH]; intros pre acc.
  - cbn. lra.
  - destruct b as [|y b].
    + cbn. lra.
    + replace (length (x :: y :: b) - 1)%nat with (S (length b))
        by (cbn [length]; lia).
      cbn [seq fold_left]. rewrite bigram_term_app.
      specialize (IH (pre ++ [x]) (acc + pair_term logp x y)%R).
      rewrite <- app_assoc, length_app in IH. cbn [length app] in IH.
      replace (S (length b) - 1)%nat with (length b) in IH by lia.
      rewrite Nat.add_1_r in IH.
      rewrite IH. cbn [bigram_sum]. lra.
Qed.

Lemma score_bigram_sum (b : list Z) (logp : dict (string * string) R) :
  score_bigram b logp = bigram_sum logp b.
Proof.
  unfold score_bigram.
  pose proof (score_bigram_loop logp b [] 0) as H.
  cbn [app length] in H. rewrite H. lra.
Qed.

Lemma byte_to_char_cases (b : Z) :
  (b = 32 /\ byte_to_char b = Some " "%string) \/
  (65 <= b <= 90 /\ byte_to_char b = Some (chr b)) \/
  (97 <= b <= 122 /\ byte_to_char b = Some (chr (b - 32))) \/
  (b <> 32 /\ ~ 65 <= b <= 90 /\ ~ 97 <= b <= 122 /\ byte_to_char b = None).
Proof.
  unfold byte_to_char.
  destruct (Z.eqb_spec b 32); [left; auto|].
  destruct (Z.leb_spec 65 b), (Z.leb_spec b 90); cbn [andb];
    try (right; left; split; [lia | reflexivity]);
    destruct (Z.leb_spec 97 b), (Z.leb_spec b 122); cbn [andb];
    try (right; right; left; split; [lia | reflexivity]);
    right; right; right; repeat split; auto; lia.
Qed.

(** C7: [score_bigram] is the sum over the adjacent pairs of bytes of the
    looked-up log-probability when both bytes map to a character and of
    -100 otherwise; byte 32 maps to the space, 65..90 to themselves, 97..122
    to the upper-case letter 32 below, and any other byte to no character. *)
Theorem score_bigram_is_sum_over_adjacent_pairs
    (b : list Z) (logp : dict (string * string) R) :
  score_bigram b logp = bigram_sum logp b /\
  (forall x y : Z,
     pair_term logp x y =
     match byte_to_char x, byte_to_char y with
     | Some a, Some c =>
         dict_get_default pair_eqb logp (a, c) (ln 1e-9)
     | _, _ => (-100)%R
     end) /\
  (forall x : Z,
     byte_to_char x =
     if x =? 32 then Some " "%string
     else if (65 <=? x) && (x <=? 90) then Some (chr x)
     else if (97 <=? x) && (x <=? 122) then byte_to_char (x - 32)
     else None) /\
  chr 65 = "A"%string /\ chr 90 = "Z"%string /\
  byte_to_char 97 = Some "A"%string /\ byte_to_char 122 = Some "Z"%string.
Proof.
  split; [apply score_bigram_sum|].
  split; [reflexivity|].
  split; [|repeat split; reflexivity].
  intros x. unfold byte_to_char at 1.
  destruct (Z.eqb_spec x 32); [reflexivity|].
  destruct ((65 <=? x) && (x <=? 90)) eqn:E1; [reflexivity|].
  destruct ((97 <=? x) && (x <=? 122)) eqn:E2; [|reflexivity].
  apply andb_true_iff in E2 as [H1 H2].
  apply Z.leb_le in H1, H2.
  unfold byte_to_char.
  destruct (Z.eqb_spec (x - 32) 32); [lia|].
  replace ((65 <=? x - 32) && (x - 32 <=? 90)) with true; [reflexivity|].
  symmetry; apply andb_true_iff; split; apply Z.leb_le; lia.
Qed.

(** ** The search *)

Section Loops.
Context {St : Type}.
Variable body : nat -> St -> result St.

Lemma for_range_app (start n m : nat) (s : St) :
  for_range body start (n + m) s =
  (s' <- for_range body start n s ;; for_range body (start + n) m s').
Proof.
  revert start s; induction n as [|n IH]; intros start s; cbn.
  - rewrite Nat.add_0_r; reflexivity.
  - destruct (body start s) as [s1|e]; cbn; [|reflexivity].
    rewrite IH. replace (S start + n)%nat with (start + S n)%nat by lia.
    reflexivity.
Qed.

(** A relation between states that every turn of the body respects and
    that is reflexive and transitive holds across the whole loop. *)
Lemma for_range_rel (rel : St -> St -> Prop) (inv : St -> Prop) :
  (forall s, rel s s) ->
  (forall a b c, rel a b -> rel b c -> rel a c) ->
  (forall i s s', inv s -> body i s = OK s' -> inv s' /\ rel s s') ->
  forall n start s s',
    inv s -> for_range body start n s = OK s' -> inv s' /\ rel s s'.
Proof.
  intros Hrefl Htrans Hstep.
  induction n as [|n IH]; intros start s s' Hinv; cbn.
  - intros [= <-]; auto.
  - destruct (body start s) as [s1|e] eqn:E; cbn; [|discriminate].
    intros H. destruct (Hstep _ _ _ Hinv E) as [Hi1 Hr1].
    destruct (IH _ _ _ Hi1 H) as [Hi2 Hr2]. eauto.
Qed.

Lemma for_range_total (inv : St -> Prop) :
  (forall i s, inv s -> exists s', body i s = OK s' /\ inv s') ->
  forall n start s, inv s ->
    exists s', for_range body start n s = OK s' /\ inv s'.
Proof.
  intros Hstep. induction n as [|n IH]; intros start s Hinv; cbn.
  - eauto.
  - destruct (Hstep start s Hinv) as (s1 & -> & Hi1); cbn. eauto.
Qed.
End Loops.

Lemma for_range_sim {St : Type} (sim : St -> St -> Prop)
    (body1 body2 : nat -> St -> result St) :
  (forall i s1 s2, sim s1 s2 -> result_sim sim (body1 i s1) (body2 i s2)) ->
  forall n start s1 s2, sim s1 s2 ->
    result_sim sim (for_range body1 start n s1) (for_range body2 start n s2).
Proof.
  intros Hstep. induction n as [|n IH]; intros start s1 s2 Hs; cbn.
  - assumption.
  - specialize (Hstep start _ _ Hs).
    destruct (body1 start s1), (body2 start s2); cbn in *;
      try contradiction; auto.
Qed.

Lemma list_set_length {A : Type} (l : list A) (n : nat) (v : A) :
  length (list_set l n v) = length l.
Proof.
  revert n; induction l as [|a l IH]; intros [|n]; cbn; auto.
Qed.

Lemma list_set_revert {A : Type} (l : list A) (n : nat) (old v : A) :
  nth_error l n = Some old -> list_set (list_set l n v) n old = l.
Proof.
  revert n; induction l as [|a l IH]; intros [|n]; cbn; try discriminate.
  - intros [= ->]; reflexivity.
  - intros H; f_equal; auto.
Qed.

Lemma setitem_OK {A : Type} (l l' : list A) (i : Z) (v : A) :
  setitem l i v = OK l' ->
  0 <= i /\ (Z.to_nat i < length l)%nat /\ l' = list_set l (Z.to_nat i) v.
Proof.
  unfold setitem. destruct (Z.ltb_spec i 0); [discriminate|].
  destruct (Nat.ltb_spec (Z.to_nat i) (length l)); [|discriminate].
  intros [= <-]; auto.
Qed.

Lemma setitem_in_range {A : Type} (l : list A) (i : Z) (v : A) :
  0 <= i < Z.of_nat (length l) ->
  setitem l i v = OK (list_set l (Z.to_nat i) v).
Proof.
  intros H. unfold setitem.
  destruct (Z.ltb_spec i 0); [lia|].
  destruct (Nat.ltb_spec (Z.to_nat i) (length l)); [reflexivity | lia].
Qed.

Lemma getitem_OK {A : Type} (l : list A) (i : Z) (a : A) :
  getitem l i = OK a -> 0 <= i /\ nth_error l (Z.to_nat i) = Some a.
Proof.
  unfold getitem. destruct (Z.ltb_spec i 0); [discriminate|].
  destruct (nth_error l (Z.to_nat i)); [|discriminate].
  intros [= <-]; auto.
Qed.

Lemma getitem_in_range {A : Type} (l : list A) (i : Z) :
  0 <= i < Z.of_nat (length l) -> exists a, getitem l i = OK a.
Proof.
  intros H. unfold getitem. destruct (Z.ltb_spec i 0); [lia|].
  destruct (nth_error l (Z.to_nat i)) eqn:E; [eauto|].
  apply nth_error_None in E; lia.
Qed.

Lemma randrange_OK (k : Z) (g : rng) (i : Z) (g' : rng) :
  randrange k g = OK (i, g') ->
  0 <= i < k /\ i = Z.of_N (src g (pos g)) mod k /\
  g' = mkRng (src g) (S (pos g)).
Proof.
  unfold randrange, next_raw. destruct (Z.leb_spec k 0); [discriminate|].
  intros [= <- <-]. split; [apply Z.mod_pos_bound; lia | auto].
Qed.

Lemma randrange_positive (k : Z) (g : rng) :
  0 < k -> exists i g', randrange k g = OK (i, g').
Proof.
  intros H. unfold randrange, next_raw.
  destruct (Z.leb_spec k 0); [lia | eauto].
Qed.

Lemma choice_In (seq : list Z) (g : rng) (c : Z) (g' : rng) :
  choice seq g = OK (c, g') ->
  In c seq /\ g' = mkRng (src g) (S (pos g)).
Proof.
  unfold choice, next_raw. destruct seq as [|c0 seq']; [discriminate|].
  remember (c0 :: seq') as l eqn:El.
  assert (0 < Z.of_nat (length l)) by (subst l; cbn [length]; lia).
  pose proof (Z.mod_pos_bound (Z.of_N (src g (pos g))) (Z.of_nat (length l))
                ltac:(lia)).
  intros H1. injection H1 as <- <-. split; [|reflexivity].
  apply nth_In. lia.
Qed.

Lemma random_unit_interval (g : rng) :
  (0 <= fst (random g) < 1)%R.
Proof.
  unfold random, next_raw; cbn [fst].
  pose proof (Z.mod_pos_bound (Z.of_N (src g (pos g))) (2 ^ 53) ltac:(lia))
    as [H0 H1].
  apply IZR_le in H0. apply IZR_lt in H1.
  assert (Hp : (0 < IZR (2 ^ 53))%R) by (apply IZR_lt; lia).
  split.
  - apply Rmult_le_pos; [assumption | left; apply Rinv_0_lt_compat; assumption].
  - apply (Rmult_lt_reg_r (IZR (2 ^ 53))); [assumption|].
    unfold Rdiv. rewrite Rmult_assoc, Rinv_l by lra. lra.
Qed.

Lemma xor_bytes_involutive (p X : list Z) :
  length p = length X -> xor_bytes p (xor_bytes p X) = X.
Proof.
  revert X; induction p as [|a p IH]; intros [|x X]; cbn [length];
    try discriminate; [reflexivity|].
  intros [= H]. rewrite !xor_bytes_cons. f_equal; [|auto].
  rewrite <- Z.lxor_assoc, Z.lxor_nilpotent. apply Z.lxor_0_l.
Qed.

Lemma choice_ALPHABET (g : rng) :
  exists c, choice ALPHABET g = OK (c, mkRng (src g) (S (pos g))).
Proof.
  unfold choice, next_raw.
  destruct ALPHABET as [|c0 l] eqn:E; [vm_compute in E; discriminate E|].
  eauto.
Qed.

Section SearchFacts.
Context {rt : PyRuntime}.
Variable X : list Z.
Variable logp : dict (string * string) R.

Lemma accept_fields (g : rng) (p : list Z) (new_score : R)
    (st : climb_state) :
  p1 (accept X g p new_score st) = p /\
  cur_score (accept X g p new_score st) = new_score /\
  gen (run (accept X g p new_score st)) = g /\
  (best_score (run st) <= best_score (run (accept X g p new_score st)))%R.
Proof.
  unfold accept. destruct (Rlt_dec (best_score (run st)) new_score); cbn;
    repeat split; lra.
Qed.

Lemma accept_best_ok (g : rng) (p : list Z) (new_score : R)
    (st : climb_state) :
  length p = length X -> best_ok X (run st) ->
  best_ok X (run (accept X g p new_score st)).
Proof.
  intros Hlen Hok. unfold accept.
  destruct (Rlt_dec (best_score (run st)) new_score) as [Hlt|Hge]; cbn.
  - right. unfold best_recorded; cbn [best_score best_pair fst snd].
    rewrite xor_bytes_length, Hlen, Nat.min_id.
    repeat split; auto using xor_bytes_involutive.
    destruct Hok as [[H _]|[H _]]; lra.
  - destruct Hok as [[H1 H2]|(H1 & H2 & H3 & H4)]; [left | right]; cbn; auto.
    unfold best_recorded; cbn; auto.
Qed.

(** What one turn of the inner loop does, given the three draws. *)
Lemma iteration_cases (iterations it : nat) (st : climb_state) :
  X <> [] -> length (p1 st) = length X ->
  exists i proposal old,
    let g1 := mkRng (src (gen (run st))) (S (pos (gen (run st)))) in
    let g2 := mkRng (src g1) (S (pos g1)) in
    let p1' := list_set (p1 st) (Z.to_nat i) proposal in
    let new_score := pair_score p1' X logp in
    let delta := (new_score - cur_score st)%R in
    let T := temperature it iterations in
    randrange (Z.of_nat (length X)) (gen (run st)) = OK (i, g1) /\
    0 <= i < Z.of_nat (length X) /\
    choice ALPHABET g1 = OK (proposal, g2) /\
    nth_error (p1 st) (Z.to_nat i) = Some old /\
    ((0 <= delta)%R ->
       iteration X logp iterations it st
       = OK (accept X g2 p1' new_score st)) /\
    (~ (0 <= delta)%R -> (fst (random g2) < exp (delta / T))%R ->
       iteration X logp iterations it st
       = OK (accept X (snd (random g2)) p1' new_score st)) /\
    (~ (0 <= delta)%R -> ~ (fst (random g2) < exp (delta / T))%R ->
       iteration X logp iterations it st
       = OK (mkClimb (mkRun (snd (random g2)) (best_pair (run st))
                        (best_score (run st)))
               (p1 st) (cur_score st))).
Proof.
  intros HX Hlen.
  assert (Hk : 0 < Z.of_nat (length X)) by (destruct X; [tauto | cbn; lia]).
  destruct (randrange_positive _ (gen (run st)) Hk) as (i & g1 & Hi).
  destruct (randrange_OK _ _ _ _ Hi) as (Hir & _ & ->).
  destruct (choice_ALPHABET (mkRng (src (gen (run st)))
                               (S (pos (gen (run st)))))) as (c & Hc).
  destruct (getitem_in_range (p1 st) i ltac:(lia)) as (old & Hold).
  destruct (getitem_OK _ _ _ Hold) as (_ & Hnth).
  exists i, c, old. cbv zeta.
  assert (Hset : setitem (p1 st) i c = OK (list_set (p1 st) (Z.to_nat i) c))
    by (apply setitem_in_range; lia).
  assert (Hback : setitem (list_set (p1 st) (Z.to_nat i) c) i old
                  = OK (p1 st)).
  { rewrite setitem_in_range by (rewrite list_set_length; lia).
    rewrite list_set_revert by assumption. reflexivity. }
  repeat split; try assumption; try lia.
  - intros Hd. unfold iteration. rewrite Hi; cbn [bind].
    rewrite Hold; cbn [bind]. rewrite Hc; cbn [bind].
    rewrite Hset; cbn [bind].
    destruct (Rle_dec _ _); [reflexivity | contradiction].
  - intros Hd Hu. unfold iteration. rewrite Hi; cbn [bind].
    rewrite Hold; cbn [bind]. rewrite Hc; cbn [bind].
    rewrite Hset; cbn [bind].
    destruct (Rle_dec _ _); [contradiction|].
    destruct (random _) as [u g3]; cbn [fst snd] in *.
    destruct (Rlt_dec _ _); [reflexivity | contradiction].
  - intros Hd Hu. unfold iteration. rewrite Hi; cbn [bind].
    rewrite Hold; cbn [bind]. rewrite Hc; cbn [bind].
    rewrite Hset; cbn [bind].
    destruct (Rle_dec _ _); [contradiction|].
    destruct (random _) as [u g3]; cbn [fst snd] in *.
    destruct (Rlt_dec _ _); [contradiction|].
    rewrite Hback; reflexivity.
Qed.

Lemma iteration_step (iterations it : nat) (st : climb_state) :
  X <> [] -> climb_inv X st ->
  exists st', iteration X logp iterations it st = OK st' /\
    climb_inv X st' /\
    (best_score (run st) <= best_score (run st'))%R.
Proof.
  intros HX [Hlen Hok].
  destruct (iteration_cases iterations it st HX Hlen)
    as (i & c & old & H). cbv zeta in H.
  destruct H as (_ & Hi & _ & _ & Ha & Hb & Hc).
  set (p' := list_set (p1 st) (Z.to_nat i) c) in *.
  assert (Hp' : length p' = length X)
    by (unfold p'; rewrite list_set_length; assumption).
  set (new_score := pair_score p' X logp) in *.
  destruct (Rle_dec 0 (new_score - cur_score st)) as [Hd|Hd].
  - eexists; split; [apply Ha; assumption|].
    match goal with |- context [accept X ?g _ _ _] =>
      destruct (accept_fields g p' new_score st) as (E1 & _ & _ & E4) end.
    unfold climb_inv. rewrite E1. auto using accept_best_ok.
  - match type of Hb with
    | _ -> (?u < ?e)%R -> _ => destruct (Rlt_dec u e) as [Hu|Hu]
    end.
    + eexists; split; [apply Hb; assumption|].
      match goal with |- context [accept X ?g _ _ _] =>
        destruct (accept_fields g p' new_score st) as (E1 & _ & _ & E4) end.
      unfold climb_inv. rewrite E1. auto using accept_best_ok.
    + eexists; split; [apply Hc; assumption|].
      unfold climb_inv; cbn. repeat split; auto; try lra.
Qed.
End SearchFacts.

(** ** Same stream, same run *)

Lemma same_stream_refl (g : rng) : same_stream g g.
Proof. intros n; reflexivity. Qed.

Lemma next_raw_sim (g1 g2 : rng) :
  same_stream g1 g2 -> draw_sim (next_raw g1) (next_raw g2).
Proof.
  intros H. unfold draw_sim, next_raw; cbn. split.
  - pose proof (H 0%nat) as H0. rewrite !Nat.add_0_r in H0.
    rewrite H0; reflexivity.
  - intros n. cbn. pose proof (H (S n)) as Hn.
    rewrite !Nat.add_succ_r in Hn. exact Hn.
Qed.

Lemma randrange_sim (k : Z) (g1 g2 : rng) :
  same_stream g1 g2 -> result_sim draw_sim (randrange k g1) (randrange k g2).
Proof.
  intros H. unfold randrange.
  destruct (k <=? 0); cbn [result_sim]; [reflexivity|].
  destruct (next_raw_sim g1 g2 H) as [Hv Hs].
  destruct (next_raw g1), (next_raw g2); cbn [fst snd result_sim] in *.
  subst; split; auto.
Qed.

Lemma choice_sim (l : list Z) (g1 g2 : rng) :
  same_stream g1 g2 -> result_sim draw_sim (choice l g1) (choice l g2).
Proof.
  intros H. unfold choice. destruct l as [|c l']; cbn [result_sim]; auto.
  destruct (next_raw_sim g1 g2 H) as [Hv Hs].
  destruct (next_raw g1), (next_raw g2); cbn [fst snd] in *.
  subst; split; auto.
Qed.

Lemma random_sim (g1 g2 : rng) :
  same_stream g1 g2 ->
  fst (random g1) = fst (random g2) /\
  same_stream (snd (random g1)) (snd (random g2)).
Proof.
  intros H. unfold random.
  destruct (next_raw_sim g1 g2 H) as [Hv Hs].
  destruct (next_raw g1), (next_raw g2); cbn [fst snd] in *.
  subst; split; auto.
Qed.

Section Determinism.
Context {rt : PyRuntime}.
Variable X : list Z.
Variable logp : dict (string * string) R.

Lemma accept_sim (g1 g2 : rng) (p : list Z) (new_score : R)
    (s1 s2 : climb_state) :
  same_stream g1 g2 -> climb_sim s1 s2 ->
  climb_sim (accept X g1 p new_score s1) (accept X g2 p new_score s2).
Proof.
  intros Hg ((_ & Hp & Hb) & _ & _). unfold accept. rewrite Hb, Hp.
  destruct (Rlt_dec (best_score (run s2)) new_score);
    repeat split; cbn; auto.
Qed.

Lemma iteration_sim (iterations it : nat) (s1 s2 : climb_state) :
  climb_sim s1 s2 ->
  result_sim climb_sim (iteration X logp iterations it s1)
    (iteration X logp iterations it s2).
Proof.
  intros Hs. pose proof Hs as ((Hg & Hp & Hb) & Hp1 & Hc).
  unfold iteration.
  pose proof (randrange_sim (Z.of_nat (length X)) _ _ Hg) as Hr.
  destruct (randrange _ (gen (run s1))) as [[i g1]|e1],
           (randrange _ (gen (run s2))) as [[i' g1']|e1'];
    cbn [result_sim bind] in *; try contradiction; auto.
  destruct Hr as [Hi Hg1]; cbn [fst snd] in Hi, Hg1; subst i'.
  rewrite <- Hp1, <- Hc.
  destruct (getitem (p1 s1) i) as [old|e]; cbn [bind result_sim]; auto.
  pose proof (choice_sim ALPHABET _ _ Hg1) as Hch.
  destruct (choice ALPHABET g1) as [[c g2]|e2],
           (choice ALPHABET g1') as [[c' g2']|e2'];
    cbn [result_sim bind] in *; try contradiction; auto.
  destruct Hch as [Hcc Hg2]; cbn [fst snd] in Hcc, Hg2; subst c'.
  destruct (setitem (p1 s1) i c) as [p'|e]; cbn [bind result_sim]; auto.
  destruct (Rle_dec 0 (pair_score p' X logp - cur_score s1)).
  - cbn [result_sim]. apply accept_sim; assumption.
  - destruct (random_sim _ _ Hg2) as [Hu Hg3].
    destruct (random g2) as [u g3], (random g2') as [u' g3'];
      cbn [fst snd] in *. subst u'.
    destruct (Rlt_dec u _).
    + cbn [result_sim]. apply accept_sim; assumption.
    + destruct (setitem p' i old); cbn [bind result_sim]; auto.
      repeat split; cbn; auto.
Qed.

Lemma restart_sim (iterations r : nat) (r1 r2 : run_state) :
  run_sim r1 r2 ->
  result_sim run_sim (restart X logp iterations r r1)
    (restart X logp iterations r r2).
Proof.
  intros Hs. unfold restart.
  assert (H0 : climb_sim (begin_restart X logp r1) (begin_restart X logp r2))
    by (unfold begin_restart; repeat split; cbn; apply Hs).
  pose proof (for_range_sim climb_sim _ _
                (iteration_sim iterations) iterations 0%nat _ _ H0) as H.
  destruct (for_range _ 0 iterations (begin_restart X logp r1)),
           (for_range _ 0 iterations (begin_restart X logp r2));
    cbn [bind result_sim] in *; try contradiction; auto.
  apply H.
Qed.

(** The result of a run depends on the generator only through the words it
    delivers, not on how the model represents it. *)
Lemma hillclimb_sim (restarts iterations : nat) (g1 g2 : rng) :
  same_stream g1 g2 ->
  hillclimb X logp restarts iterations g1
  = hillclimb X logp restarts iterations g2.
Proof.
  intros Hg. unfold hillclimb.
  assert (H0 : run_sim (initial_run g1) (initial_run g2))
    by (repeat split; cbn; auto).
  pose proof (for_range_sim run_sim _ _
                (restart_sim iterations) restarts 0%nat _ _ H0) as H.
  destruct (for_range _ 0 restarts (initial_run g1)),
           (for_range _ 0 restarts (initial_run g2));
    cbn [bind result_sim] in *; try contradiction.
  - destruct H as (_ & -> & ->); reflexivity.
  - congruence.
Qed.
End Determinism.

(** ** The whole run *)

Section RunFacts.
Context {rt : PyRuntime}.
Variable X : list Z.
Variable logp : dict (string * string) R.

Lemma iteration_empty (iterations it : nat) (st : climb_state) :
  X = [] -> iteration X logp iterations it st = Error ValueError.
Proof. intros ->; reflexivity. Qed.

Lemma iteration_preserves (iterations it : nat) (st st' : climb_state) :
  climb_inv X st -> iteration X logp iterations it st = OK st' ->
  climb_inv X st' /\ (best_score (run st) <= best_score (run st'))%R.
Proof.
  intros Hinv H.
  assert (HX : X = [] \/ X <> [])
    by (destruct X; [left; reflexivity | right; discriminate]).
  destruct HX as [HX|HX].
  - rewrite iteration_empty in H by assumption; discriminate.
  - destruct (iteration_step X logp iterations it st HX Hinv)
      as (st'' & E & Hi & Hle).
    rewrite E in H; injection H as <-; auto.
Qed.

Lemma iteration_best_le (iterations it : nat) (st st' : climb_state) :
  iteration X logp iterations it st = OK st' ->
  (best_score (run st) <= best_score (run st'))%R.
Proof.
  unfold iteration.
  destruct (randrange _ _) as [[i g1]|]; cbn [bind]; [|discriminate].
  destruct (getitem _ _) as [old|]; cbn [bind]; [|discriminate].
  destruct (choice _ _) as [[c g2]|]; cbn [bind]; [|discriminate].
  destruct (setitem _ _ _) as [p'|]; cbn [bind]; [|discriminate].
  destruct (Rle_dec _ _).
  - intros [= <-]. apply accept_fields.
  - destruct (random g2) as [u g3]. destruct (Rlt_dec _ _).
    + intros [= <-]. apply accept_fields.
    + destruct (setitem _ _ _); cbn [bind]; [|discriminate].
      intros [= <-]; cbn; lra.
Qed.

Lemma climb_best_le (iterations n start : nat) (st st' : climb_state) :
  for_range (iteration X logp iterations) start n st = OK st' ->
  (best_score (run st) <= best_score (run st'))%R.
Proof.
  intros H.
  apply (for_range_rel (iteration X logp iterations)
           (fun a b => (best_score (run a) <= best_score (run b))%R)
           (fun _ => True)) with (n := n) (start := start); auto.
  - intros; lra.
  - intros; lra.
  - intros i s s' _ E; split; [exact I | eapply iteration_best_le; eauto].
Qed.

Lemma climb_preserves (iterations n start : nat) (st st' : climb_state) :
  climb_inv X st ->
  for_range (iteration X logp iterations) start n st = OK st' ->
  climb_inv X st'.
Proof.
  intros Hinv H.
  apply (for_range_rel (iteration X logp iterations)
           (fun _ _ => True) (climb_inv X)) with (n := n) (start := start)
           (s := st); auto.
  intros i s s' Hi E; split; [|exact I].
  eapply iteration_preserves; eauto.
Qed.

Lemma begin_restart_inv (rs : run_state) :
  best_ok X rs -> climb_inv X (begin_restart X logp rs).
Proof.
  intros H; split; [apply repeat_length | exact H].
Qed.

Lemma restart_best_le (iterations r : nat) (rs rs' : run_state) :
  restart X logp iterations r rs = OK rs' ->
  (best_score rs <= best_score rs')%R.
Proof.
  unfold restart.
  destruct (for_range _ _ _ _) as [st|] eqn:E; cbn [bind]; [|discriminate].
  intros [= <-]. apply climb_best_le in E. exact E.
Qed.

Lemma restart_preserves (iterations r : nat) (rs rs' : run_state) :
  best_ok X rs -> restart X logp iterations r rs = OK rs' -> best_ok X rs'.
Proof.
  unfold restart. intros Hok.
  destruct (for_range _ _ _ _) as [st|] eqn:E; cbn [bind]; [|discriminate].
  intros [= <-].
  apply (climb_preserves _ _ _ _ _ (begin_restart_inv rs Hok) E).
Qed.

Lemma run_best_le (iterations n start : nat) (rs rs' : run_state) :
  for_range (restart X logp iterations) start n rs = OK rs' ->
  (best_score rs <= best_score rs')%R.
Proof.
  intros H.
  apply (for_range_rel (restart X logp iterations)
           (fun a b => (best_score a <= best_score b)%R)
           (fun _ => True)) with (n := n) (start := start); auto.
  - intros; lra.
  - intros; lra.
  - intros i s s' _ E; split; [exact I | eapply restart_best_le; eauto].
Qed.

Lemma run_preserves (iterations n start : nat) (rs rs' : run_state) :
  best_ok X rs ->
  for_range (restart X logp iterations) start n rs = OK rs' ->
  best_ok X rs'.
Proof.
  intros Hok H.
  apply (for_range_rel (restart X logp iterations)
           (fun _ _ => True) (best_ok X)) with (n := n) (start := start)
           (s := rs); auto.
  intros i s s' Hi E; split; [|exact I].
  eapply restart_preserves; eauto.
Qed.

Lemma initial_run_ok (g : rng) : best_ok X (initial_run g).
Proof. left; split; reflexivity. Qed.

(** On a non-empty difference array every loop runs to its end. *)
Lemma climb_total (iterations n start : nat) (st : climb_state) :
  X <> [] -> climb_inv X st ->
  exists st', for_range (iteration X logp iterations) start n st = OK st'
              /\ climb_inv X st'.
Proof.
  intros HX. apply for_range_total.
  intros i s Hs.
  destruct (iteration_step X logp iterations i s HX Hs) as (s' & E & Hi & _).
  eauto.
Qed.

Lemma run_total (iterations n start : nat) (rs : run_state) :
  X <> [] -> best_ok X rs ->
  exists rs', for_range (restart X logp iterations) start n rs = OK rs'
              /\ best_ok X rs'.
Proof.
  intros HX. apply for_range_total.
  intros i s Hs. unfold restart.
  destruct (climb_total iterations iterations 0 _ HX
              (begin_restart_inv s Hs)) as (st' & -> & Hi & Hok).
  cbn [bind]. eauto.
Qed.

Lemma hillclimb_total (restarts iterations : nat) (g : rng) :
  X <> [] ->
  exists res, hillclimb X logp restarts iterations g = OK res.
Proof.
  intros HX. unfold hillclimb.
  destruct (run_total iterations restarts 0 _ HX (initial_run_ok g))
    as (rs & -> & _).
  cbn [bind]. eauto.
Qed.

Lemma for_range_prefix {St : Type} (body : nat -> St -> result St)
    (n m : nat) (s s2 : St) :
  (n <= m)%nat -> for_range body 0 m s = OK s2 ->
  exists s1, for_range body 0 n s = OK s1 /\
             for_range body n (m - n) s1 = OK s2.
Proof.
  intros Hle H. replace m with (n + (m - n))%nat in H by lia.
  rewrite for_range_app in H.
  destruct (for_range body 0 n s) as [s1|]; cbn [bind] in H;
    [|discriminate].
  exists s1; split; [reflexivity | exact H].
Qed.
End RunFacts.

(** C1: at every point of a run (after any number of completed restarts and
    any number of iterations of the next one) the best-ever record is either
    the initial placeholder or a recorded pair; a recorded pair [(q1, q2)]
    has [len(q1) = len(q2) = len(X)] and [q1 XOR q2 = X] at every position.
    The same holds of the pair [hillclimb] returns. *)
Theorem hillclimb_best_pair_xor_identity {rt : PyRuntime}
    (X : list Z) (logp : dict (string * string) R)
    (restarts iterations : nat) (g : rng) :
  (forall (r it : nat) (rs : run_state) (st : climb_state),
     for_range (restart X logp iterations) 0 r (initial_run g) = OK rs ->
     for_range (iteration X logp iterations) 0 it (begin_restart X logp rs)
     = OK st ->
     best_ok X (run st)) /\
  (forall (q1 q2 : list Z) (sc : R),
     hillclimb X logp restarts iterations g = OK ((q1, q2), sc) ->
     (sc = initial_best_score /\ q1 = [] /\ q2 = []) \/
     ((initial_best_score < sc)%R /\
      length q1 = length X /\ length q2 = length X /\
      xor_bytes q1 q2 = X /\
      forall (i : nat) (x : Z), nth_error X i = Some x ->
        exists a b, nth_error q1 i = Some a /\ nth_error q2 i = Some b /\
                    Z.lxor a b = x)).
Proof.
  split.
  - intros r it rs st Hr Hit.
    pose proof (run_preserves X logp _ _ _ _ _ (initial_run_ok X g) Hr) as Hok.
    apply (climb_preserves X logp _ _ _ _ _
             (begin_restart_inv X logp rs Hok) Hit).
  - intros q1 q2 sc H. unfold hillclimb in H.
    destruct (for_range _ 0 restarts (initial_run g)) as [rs|] eqn:E;
      cbn [bind] in H; [|discriminate].
    injection H as Hp Hs.
    pose proof (run_preserves X logp _ _ _ _ _ (initial_run_ok X g) E) as Hok.
    destruct Hok as [[H1 H2]|(H1 & H2 & H3 & H4)].
    + left. rewrite Hp in H2. injection H2 as -> ->. subst sc. auto.
    + right. rewrite Hp in H2, H3, H4. cbn [fst snd] in H2, H3, H4.
      subst sc. repeat split; auto.
      intros i x Hx. rewrite <- H4, xor_bytes_nth_error in Hx.
      destruct (nth_error q1 i) as [a|]; [|discriminate].
      destruct (nth_error q2 i) as [b|]; [|discriminate].
      injection Hx as Hx. eauto.
Qed.

Lemma hillclimb_best_pair_xor_identity_witness :
  exists q1 q2 sc,
    @hillclimb demo_runtime [1; 2; 3] [] 2 3 demo_rng = OK ((q1, q2), sc) /\
    ((sc = initial_best_score /\ q1 = [] /\ q2 = []) \/
     ((initial_best_score < sc)%R /\
      length q1 = 3%nat /\ length q2 = 3%nat /\
      xor_bytes q1 q2 = [1; 2; 3] /\
      forall (i : nat) (x : Z), nth_error [1; 2; 3] i = Some x ->
        exists a b, nth_error q1 i = Some a /\ nth_error q2 i = Some b /\
                    Z.lxor a b = x)).
Proof.
  destruct (@hillclimb_total demo_runtime [1; 2; 3] [] 2 3 demo_rng
              ltac:(discriminate)) as [[[q1 q2] sc] H].
  exists q1, q2, sc. split; [exact H|].
  exact (proj2 (@hillclimb_best_pair_xor_identity demo_runtime
                  [1; 2; 3] [] 2 3 demo_rng) q1 q2 sc H).
Defined.

(** C2: the best-ever score never decreases.  Starting a restart leaves
    the best-ever record as it is and resets only the candidate (to all
    spaces); within a restart the best score after [n] iterations is at most
    the one after [m >= n] iterations; over the run the best score after [n]
    restarts is at most the one after [m >= n] restarts, and never below
    the initial -1e18. *)
Theorem best_score_never_decreases {rt : PyRuntime}
    (X : list Z) (logp : dict (string * string) R) (iterations : nat) :
  (forall rs : run_state,
     run (begin_restart X logp rs) = rs /\
     p1 (begin_restart X logp rs) = repeat 32 (length X)) /\
  (forall (st s1 s2 : climb_state) (n m : nat),
     (n <= m)%nat ->
     for_range (iteration X logp iterations) 0 n st = OK s1 ->
     for_range (iteration X logp iterations) 0 m st = OK s2 ->
     (best_score (run st) <= best_score (run s1) <= best_score (run s2))%R) /\
  (forall (g : rng) (r1 r2 : run_state) (n m : nat),
     (n <= m)%nat ->
     for_range (restart X logp iterations) 0 n (initial_run g) = OK r1 ->
     for_range (restart X logp iterations) 0 m (initial_run g) = OK r2 ->
     (initial_best_score <= best_score r1 <= best_score r2)%R).
Proof.
  repeat split.
  - eapply climb_best_le; eauto.
  - destruct (for_range_prefix _ n m st s2 H H1) as (s1' & E1 & E2).
    rewrite E1 in H0; injection H0 as <-.
    eapply climb_best_le; eauto.
  - apply (run_best_le X logp _ _ _ _ _ H0).
  - destruct (for_range_prefix _ n m _ r2 H H1) as (r1' & E1 & E2).
    rewrite E1 in H0; injection H0 as <-.
    eapply run_best_le; eauto.
Qed.

Lemma best_score_never_decreases_witness :
  exists r1 r2 : run_state,
    for_range (@restart demo_runtime [1; 2; 3] [] 3) 0 1 (initial_run demo_rng)
    = OK r1 /\
    for_range (@restart demo_runtime [1; 2; 3] [] 3) 0 2 (initial_run demo_rng)
    = OK r2 /\
    (initial_best_score <= best_score r1 <= best_score r2)%R.
Proof.
  destruct (@run_total demo_runtime [1; 2; 3] [] 3 1 0 (initial_run demo_rng)
              ltac:(discriminate) (initial_run_ok _ _)) as (r1 & H1 & _).
  destruct (@run_total demo_runtime [1; 2; 3] [] 3 2 0 (initial_run demo_rng)
              ltac:(discriminate) (initial_run_ok _ _)) as (r2 & H2 & _).
  exists r1, r2. split; [exact H1|]. split; [exact H2|].
  exact (proj2 (proj2 (@best_score_never_decreases demo_runtime
                         [1; 2; 3] [] 3))
           demo_rng r1 r2 1%nat 2%nat ltac:(lia) H1 H2).
Defined.



(** C4 (what the code does): on a zero-length [X] with positive restart and
    iteration counts, the first iteration calls [random.randrange(0)], which
    raises [ValueError]; [hillclimb] returns nothing.  The score of the
    empty pair, which the run computes before it fails, is 0. *)
Theorem hillclimb_empty_input_raises {rt : PyRuntime}
    (logp : dict (string * string) R) (restarts iterations : nat) (g : rng) :
  hillclimb [] logp (S restarts) (S iterations) g = Error ValueError /\
  pair_score [] [] logp = 0%R.
Proof.
  split; [reflexivity|].
  unfold pair_score, combined_score, score_bigram.
  change (xor_bytes [] []) with (@nil Z). cbn [length Nat.sub seq fold_left].
  change (word_bonus_score (utf8_decode_ignore [])) with 0.
  lra.
Qed.

(** ** load_ftable *)

Section LoadFacts.
Context {rt : PyRuntime}.

Lemma totals_step_get (totals : dict string R)
    (item : (string * string) * R) (a : string) :
  dict_get_default String.eqb (totals_step totals item) a 0%R
  = (dict_get_default String.eqb totals a 0
     + (if String.eqb (fst (fst item)) a then snd item else 0))%R.
Proof.
  unfold totals_step, dict_get_default at 1. cbv zeta.
  destruct (String.eqb_spec (fst (fst item)) a) as [->|Hne].
  - rewrite (dict_get_set_same String.eqb String.eqb_eq). reflexivity.
  - rewrite (dict_get_set_other String.eqb String.eqb_eq) by congruence.
    fold (dict_get_default String.eqb totals a 0%R). lra.
Qed.

Lemma totals_step_present (totals : dict string R)
    (item : (string * string) * R) (a : string) :
  dict_get String.eqb totals a <> None \/ fst (fst item) = a ->
  dict_get String.eqb (totals_step totals item) a <> None.
Proof.
  unfold totals_step. cbv zeta. intros H.
  destruct (String.eqb_spec (fst (fst item)) a) as [->|Hne].
  - rewrite (dict_get_set_same String.eqb String.eqb_eq). discriminate.
  - rewrite (dict_get_set_other String.eqb String.eqb_eq) by congruence.
    destruct H; [assumption | contradiction].
Qed.

Lemma fold_totals_get (counts : dict (string * string) R)
    (totals : dict string R) (a : string) :
  dict_get_default String.eqb (fold_left totals_step counts totals) a 0%R
  = (dict_get_default String.eqb totals a 0 + row_total counts a)%R.
Proof.
  revert totals; induction counts as [|[k v] counts IH]; intros totals;
    cbn [fold_left row_total].
  - lra.
  - rewrite IH, totals_step_get. cbn [fst snd].
    destruct (String.eqb (fst k) a); lra.
Qed.

Lemma fold_totals_present (counts : dict (string * string) R)
    (totals : dict string R) (a : string) :
  dict_get String.eqb totals a <> None \/
  In a (map (fun item => fst (fst item)) counts) ->
  dict_get String.eqb (fold_left totals_step counts totals) a <> None.
Proof.
  revert totals; induction counts as [|[k v] counts IH]; intros totals;
    cbn [fold_left map In].
  - intros [H|[]]; assumption.
  - intros H. apply IH.
    destruct H as [H|[H|H]]; [left | left | right; assumption];
      apply totals_step_present; auto.
Qed.

(** The dictionary [totals] holds, for every row character of [counts],
    the sum of that row's counts. *)
Lemma build_totals_row_total (counts : dict (string * string) R)
    (k : string * string) (v : R) :
  In (k, v) counts ->
  dict_getitem String.eqb (build_totals counts) (fst k)
  = OK (row_total counts (fst k)).
Proof.
  intros Hin. unfold dict_getitem.
  pose proof (fold_totals_get counts [] (fst k)) as Hsum.
  pose proof (fold_totals_present counts [] (fst k)) as Hpres.
  unfold build_totals.
  unfold dict_get_default in Hsum at 1.
  destruct (dict_get String.eqb (fold_left totals_step counts []) (fst k))
    as [tot|] eqn:E.
  - f_equal. rewrite Hsum. cbn. lra.
  - exfalso. apply Hpres; [|reflexivity].
    right. apply in_map_iff. exists (k, v); auto.
Qed.

Lemma build_logp_spec (totals : dict string R)
    (items : dict (string * string) R) :
  forall logp0 : dict (string * string) R,
    NoDup (map fst items) ->
    (forall k, In k (map fst items) -> ~ In k (map fst logp0)) ->
    (forall k v, In (k, v) items ->
       exists tot, dict_getitem String.eqb totals (fst k) = OK tot) ->
    exists logp,
      build_logp totals items logp0 = OK logp /\
      map fst logp = map fst logp0 ++ map fst items /\
      forall k v, In (k, v) items ->
        exists tot, dict_getitem String.eqb totals (fst k) = OK tot /\
          dict_get pair_eqb logp k = Some (ln (prob_of v tot)).
Proof.
  induction items as [|[k v] items IH]; intros logp0 Hnd Hfresh Htot;
    cbn [build_logp map].
  - exists logp0. rewrite app_nil_r. repeat split; auto. intros ? ? [].
  - destruct (Htot k v (or_introl eq_refl)) as (tot & Etot).
    rewrite Etot; cbn [bind].
    inversion Hnd as [|? ? Hk Hnd']; subst.
    assert (Hkeys : map fst (dict_set pair_eqb logp0 k (ln (prob_of v tot)))
                    = map fst logp0 ++ [k]).
    { apply (dict_set_keys_absent pair_eqb pair_eqb_eq).
      apply Hfresh; left; reflexivity. }
    destruct (IH (dict_set pair_eqb logp0 k (ln (prob_of v tot))) Hnd')
      as (logp & E & Hk' & Hv).
    { intros k' Hin. rewrite Hkeys, in_app_iff.
      intros [H|[<-|[]]]; [|contradiction].
      revert H; apply Hfresh; right; assumption. }
    { intros k' v' Hin; apply (Htot k' v'); right; assumption. }
    exists logp. split; [exact E|]. split.
    + rewrite Hk', Hkeys, <- app_assoc. reflexivity.
    + intros k' v' [[= <- <-]|Hin]; [|auto].
      exists tot; split; [assumption|].
      (* the entry written for [k] is not overwritten later *)
      clear IH Hv.
      assert (Hget : forall items1 l0 l1,
                ~ In k (map fst items1) ->
                build_logp totals items1 l0 = OK l1 ->
                dict_get pair_eqb l1 k = dict_get pair_eqb l0 k).
      { induction items1 as [|[k1 v1] items1 IH1]; intros l0 l1 Hn;
          cbn [build_logp map In] in *.
        - intros [= <-]; reflexivity.
        - destruct (dict_getitem String.eqb totals (fst k1));
            cbn [bind]; [|discriminate].
          intros H1. rewrite (IH1 _ _ ltac:(tauto) H1).
          apply (dict_get_set_other pair_eqb pair_eqb_eq).
          intros ->; tauto. }
      rewrite (Hget _ _ _ Hk E).
      apply (dict_get_set_same pair_eqb pair_eqb_eq).
Qed.
End LoadFacts.

Section CountsFacts.
Context {rt : PyRuntime}.
Variable header : list string.

Lemma store_cell_in_range (a : string) (counts : dict (string * string) R)
    (i : nat) (v b : string) :
  nth_error header i = Some b ->
  store_cell header a counts i v
  = OK (dict_set pair_eqb counts (a, b) (cell_count v)).
Proof.
  intros Hb. unfold store_cell, except_store, cell_count. rewrite Hb.
  destruct (float_of_string v); reflexivity.
Qed.

Lemma store_cell_out_of_range (a : string)
    (counts : dict (string * string) R) (i : nat) (v : string) :
  nth_error header i = None ->
  store_cell header a counts i v = Error IndexError.
Proof.
  intros Hb. unfold store_cell, except_store. rewrite Hb.
  destruct (float_of_string v); reflexivity.
Qed.

Lemma store_cell_NoDup (a : string) (counts counts' : dict (string * string) R)
    (i : nat) (v : string) :
  NoDup (map fst counts) ->
  store_cell header a counts i v = OK counts' ->
  NoDup (map fst counts').
Proof.
  intros Hnd. destruct (nth_error header i) as [b|] eqn:Hb.
  - rewrite (store_cell_in_range _ _ _ _ _ Hb). intros [= <-].
    apply (dict_set_NoDup pair_eqb pair_eqb_eq); assumption.
  - rewrite (store_cell_out_of_range _ _ _ _ Hb). discriminate.
Qed.

Lemma store_cells_NoDup (a : string) (cells : list string) :
  forall (counts counts' : dict (string * string) R) (i : nat),
    NoDup (map fst counts) ->
    store_cells header a counts i cells = OK counts' ->
    NoDup (map fst counts').
Proof.
  induction cells as [|v cells IH]; intros counts counts' i Hnd;
    cbn [store_cells].
  - intros [= <-]; assumption.
  - destruct (store_cell header a counts i v) as [c1|] eqn:E; cbn [bind];
      [|discriminate].
    apply IH. eapply store_cell_NoDup; eauto.
Qed.

Lemma store_rows_NoDup (rows : list (list string)) :
  forall counts counts' : dict (string * string) R,
    NoDup (map fst counts) ->
    store_rows header counts rows = OK counts' ->
    NoDup (map fst counts').
Proof.
  induction rows as [|r rows IH]; intros counts counts' Hnd;
    cbn [store_rows].
  - intros [= <-]; assumption.
  - destruct (store_row header counts r) as [c1|] eqn:E; cbn [bind];
      [|discriminate].
    apply IH. destruct r as [|r0 cells]; [discriminate|].
    eapply store_cells_NoDup; eauto.
Qed.

Lemma store_cells_total (a : string) (cells : list string) :
  forall (counts : dict (string * string) R) (i : nat),
    (i + length cells <= length header)%nat ->
    exists counts', store_cells header a counts i cells = OK counts'.
Proof.
  induction cells as [|v cells IH]; intros counts i Hlen;
    cbn [store_cells length] in *.
  - eauto.
  - destruct (nth_error header i) as [b|] eqn:Hb.
    + rewrite (store_cell_in_range _ _ _ _ _ Hb); cbn [bind].
      apply IH; lia.
    + apply nth_error_None in Hb; lia.
Qed.

Lemma store_rows_total (rows : list (list string)) :
  forall counts : dict (string * string) R,
    Forall (fun r => r <> [] /\ (length (tl r) <= length header)%nat) rows ->
    exists counts', store_rows header counts rows = OK counts'.
Proof.
  induction rows as [|r rows IH]; intros counts Hall; cbn [store_rows].
  - eauto.
  - inversion Hall as [|? ? [Hne Hlen] Hall']; subst.
    destruct r as [|r0 cells]; [contradiction|]. cbn [store_row tl] in *.
    destruct (store_cells_total (str_strip r0) cells counts 0 Hlen)
      as (c1 & ->).
    cbn [bind]. apply IH; assumption.
Qed.
End CountsFacts.

Lemma prob_of_cases (v tot : R) :
  (prob_of v tot
   = if Rle_dec tot 0 then 1e-9 else Rmax (v / tot) 1e-9)%R /\
  ((tot <= 0)%R -> prob_of v tot = 1e-9%R) /\
  ((0 < tot)%R -> (v / tot <= 1e-9)%R -> prob_of v tot = 1e-9%R) /\
  ((0 < tot)%R -> (1e-9 <= v / tot)%R -> prob_of v tot = (v / tot)%R) /\
  (1e-9 <= prob_of v tot)%R.
Proof.
  unfold prob_of, floor_prob.
  split; [reflexivity|].
  destruct (Rle_dec tot 0) as [Hle|Hgt].
  - repeat split; intros; lra.
  - repeat split; intros; try lra.
    + apply Rmax_right; assumption.
    + apply Rmax_left; assumption.
    + apply Rmax_r.
Qed.

Lemma load_ftable_from_counts {rt : PyRuntime}
    (rows : list (list string)) (counts : dict (string * string) R) :
  build_counts rows = OK counts ->
  exists logp, load_ftable rows = OK logp /\
    map fst logp = map fst counts /\
    forall (a b : string) (v : R),
      dict_get pair_eqb counts (a, b) = Some v ->
      dict_get pair_eqb logp (a, b)
      = Some (ln (prob_of v (row_total counts a))).
Proof.
  intros Hc. unfold load_ftable. rewrite Hc; cbn [bind].
  assert (Hnd : NoDup (map fst counts)).
  { unfold build_counts in Hc. destruct rows as [|row0 data]; [discriminate|].
    apply (store_rows_NoDup (tl row0) data [] counts);
      [constructor | exact Hc]. }
  destruct (build_logp_spec (build_totals counts) counts [] Hnd)
    as (logp & E & Hk & Hv).
  { intros k _ []. }
  { intros k v Hin. eexists. apply (build_totals_row_total _ _ _ Hin). }
  exists logp. split; [exact E|]. split; [exact Hk|].
  intros a b v Hget.
  apply (dict_get_Some_In pair_eqb pair_eqb_eq) in Hget.
  destruct (Hv _ _ Hget) as (tot & Htot & Hl).
  rewrite (build_totals_row_total _ _ _ Hget) in Htot.
  injection Htot as <-. exact Hl.
Qed.

(** Every value of a loaded table is at least [log(1e-9)]. *)
Lemma load_ftable_values_ge_floor {rt : PyRuntime}
    (rows : list (list string)) (logp : dict (string * string) R) :
  load_ftable rows = OK logp ->
  forall k v, dict_get pair_eqb logp k = Some v -> (ln 1e-9 <= v)%R.
Proof.
  intros Hl k v Hget.
  pose proof Hl as Hl'. unfold load_ftable in Hl'.
  destruct (build_counts rows) as [counts|] eqn:Hc; cbn [bind] in Hl';
    [|discriminate].
  destruct (load_ftable_from_counts rows counts Hc) as (logp' & E & Hk & Hv).
  rewrite E in Hl; injection Hl as ->.
  assert (Hin : In k (map fst counts)).
  { rewrite <- Hk. apply (dict_get_Some_In pair_eqb pair_eqb_eq) in Hget.
    apply in_map_iff; exists (k, v); auto. }
  destruct (dict_get pair_eqb counts k) as [v0|] eqn:E0.
  - destruct k as [a b]. rewrite (Hv a b v0 E0) in Hget.
    injection Hget as <-.
    pose proof (prob_of_cases v0 (row_total counts a)) as (_ & _ & _ & _ & H).
    destruct H as [H|H]; [left; apply ln_increasing; lra | rewrite <- H; lra].
  - apply (dict_get_None pair_eqb pair_eqb_eq) in E0; contradiction.
Qed.

Lemma last_cell_app (k : string * string)
    (l1 l2 : list ((string * string) * string)) :
  last_cell k (l1 ++ l2)
  = match last_cell k l2 with
    | Some v => Some v
    | None => last_cell k l1
    end.
Proof.
  induction l1 as [|[k' v] l1 IH]; cbn [app last_cell].
  - destruct (last_cell k l2); reflexivity.
  - rewrite IH. destruct (last_cell k l2); reflexivity.
Qed.

Lemma nth_error_skipn_cons {A : Type} (l : list A) :
  forall (i : nat) (x : A),
    nth_error l i = Some x -> skipn i l = x :: skipn (S i) l.
Proof.
  induction l as [|a l IH]; intros [|i] x; cbn [nth_error skipn];
    try discriminate.
  - intros [= ->]; reflexivity.
  - intros H. apply (IH i x H).
Qed.

Lemma dict_get_set (d : dict (string * string) R)
    (k0 k : string * string) (v : R) :
  dict_get pair_eqb (dict_set pair_eqb d k0 v) k
  = if pair_eqb k k0 then Some v else dict_get pair_eqb d k.
Proof.
  destruct (pair_eqb k k0) eqn:E.
  - apply pair_eqb_eq in E; subst.
    apply (dict_get_set_same pair_eqb pair_eqb_eq).
  - apply (dict_get_set_other pair_eqb pair_eqb_eq).
    intros ->. rewrite pair_eqb_refl in E; discriminate.
Qed.

(** After the cells of a row are stored, a key holds the count of the last
    of these cells stored under it, or else what it held before. *)
Lemma store_cells_get {rt : PyRuntime} (header : list string) (a : string)
    (cells : list string) :
  forall (counts counts' : dict (string * string) R) (i : nat),
    store_cells header a counts i cells = OK counts' ->
    forall k,
      dict_get pair_eqb counts' k
      = match last_cell k (map (fun bv => ((a, fst bv), snd bv))
                             (zip (skipn i header) cells)) with
        | Some v => Some (cell_count v)
        | None => dict_get pair_eqb counts k
        end.
Proof.
  induction cells as [|v cells IH]; intros counts counts' i;
    cbn [store_cells].
  - intros [= <-] k. destruct (skipn i header); reflexivity.
  - destruct (nth_error header i) as [b|] eqn:Hb.
    + rewrite (store_cell_in_range _ _ _ _ _ _ Hb); cbn [bind].
      intros H k. rewrite (IH _ _ _ H k).
      rewrite (nth_error_skipn_cons _ _ _ Hb).
      cbn [zip map last_cell fst snd].
      destruct (last_cell k _); [reflexivity|].
      rewrite dict_get_set. destruct (pair_eqb k (a, b)); reflexivity.
    + rewrite (store_cell_out_of_range _ _ _ _ _ Hb); discriminate.
Qed.

Lemma store_rows_get {rt : PyRuntime} (header : list string)
    (rows : list (list string)) :
  forall (counts counts' : dict (string * string) R),
    store_rows header counts rows = OK counts' ->
    forall k,
      dict_get pair_eqb counts' k
      = match last_cell k (keyed_cells header rows) with
        | Some v => Some (cell_count v)
        | None => dict_get pair_eqb counts k
        end.
Proof.
  induction rows as [|r rows IH]; intros counts counts'; cbn [store_rows].
  - intros [= <-] k; reflexivity.
  - destruct (store_row header counts r) as [c1|] eqn:E; cbn [bind];
      [|discriminate].
    destruct r as [|r0 cells]; [discriminate|]. cbn [store_row] in E.
    intros H k. rewrite (IH _ _ H k).
    unfold keyed_cells. cbn [flat_map]. rewrite last_cell_app.
    fold (keyed_cells header rows).
    destruct (last_cell k (keyed_cells header rows)); [reflexivity|].
    rewrite (store_cells_get _ _ _ _ _ _ E k). reflexivity.
Qed.



(** ** The word bonus *)

Lemma count_from_nonneg (w t : list Z) :
  forall skip : nat, 0 <= count_from w skip t.
Proof.
  induction t as [|d t IH]; intros skip; cbn [count_from]; [lia|].
  destruct skip as [|n]; [|apply IH].
  destruct (starts_with w (d :: t)); [|apply IH].
  pose proof (IH (length w - 1)%nat); lia.
Qed.

Lemma str_count_nonneg (t w : list Z) : 0 <= str_count t w.
Proof.
  unfold str_count. destruct w; [lia | apply count_from_nonneg].
Qed.

Lemma starts_with_In (w t : list Z) (c : Z) :
  starts_with w t = true -> In c w -> In c t.
Proof.
  revert t; induction w as [|x w IH]; intros t; cbn [starts_with In];
    [tauto|].
  destruct t as [|d t]; [discriminate|].
  intros H. apply andb_true_iff in H as [Hx Hw]. apply Z.eqb_eq in Hx.
  intros [<-|Hin]; [left; auto | right; auto].
Qed.

(** A word with a character that the text lacks does not occur in it. *)
Lemma count_from_absent (w t : list Z) (c : Z) :
  In c w -> ~ In c t -> forall skip : nat, count_from w skip t = 0.
Proof.
  intros Hw. induction t as [|d t IH]; intros Ht skip; cbn [count_from];
    [reflexivity|].
  assert (Ht' : ~ In c t) by (intros H; apply Ht; right; assumption).
  destruct skip as [|n]; [|apply IH; assumption].
  destruct (starts_with w (d :: t)) eqn:E; [|apply IH; assumption].
  exfalso. apply Ht. eapply starts_with_In; eauto.
Qed.

Lemma bonus_fold_nonneg (text : list Z) (ws : list (list Z)) :
  forall acc : Z, 0 <= acc ->
    0 <= fold_left (fun bonus word => bonus + str_count text word * 10000)
           ws acc.
Proof.
  induction ws as [|w ws IH]; intros acc Hacc; cbn [fold_left]; [assumption|].
  apply IH. pose proof (str_count_nonneg text w). lia.
Qed.

Lemma bonus_fold_zero (text : list Z) (ws : list (list Z)) :
  Forall (fun w => str_count text w = 0) ws ->
  forall acc : Z,
    fold_left (fun bonus word => bonus + str_count text word * 10000) ws acc
    = acc.
Proof.
  induction 1 as [|w ws Hw _ IH]; intros acc; cbn [fold_left]; [reflexivity|].
  rewrite IH, Hw. lia.
Qed.

Lemma word_bonus_nonneg {rt : PyRuntime} (text : list Z) :
  0 <= word_bonus_score text.
Proof. unfold word_bonus_score. apply bonus_fold_nonneg; lia. Qed.

Lemma common_words_letters :
  Forall (fun w => exists c, In c w /\ 97 <= c <= 122 /\ c <> 105 /\ c <> 107)
    COMMON_WORDS.
Proof.
  assert (H : forallb
                (fun w => existsb
                   (fun c => (97 <=? c) && (c <=? 122)
                             && negb (c =? 105) && negb (c =? 107)) w)
                COMMON_WORDS = true) by (vm_compute; reflexivity).
  rewrite forallb_forall in H. apply Forall_forall. intros w Hw.
  specialize (H w Hw). apply existsb_exists in H as (c & Hc & Hb).
  exists c. split; [assumption|].
  rewrite !andb_true_iff, !negb_true_iff in Hb.
  destruct Hb as (((H1 & H2) & H3) & H4).
  apply Z.leb_le in H1, H2. apply Z.eqb_neq in H3, H4. lia.
Qed.

(** A lowered text whose only ASCII lower-case letters are [i] and [k]
    earns no bonus. *)
Lemma word_bonus_zero {rt : PyRuntime} (text : list Z) :
  (forall x, In x (str_lower text) -> 97 <= x <= 122 -> x = 105 \/ x = 107) ->
  word_bonus_score text = 0.
Proof.
  intros Hok. unfold word_bonus_score. apply bonus_fold_zero.
  pose proof common_words_letters as Hw.
  rewrite Forall_forall in *. intros w Hin.
  destruct (Hw w Hin) as (c & Hc & Hr & H1 & H2).
  unfold str_count. destruct w as [|x w']; [destruct Hc|].
  apply (count_from_absent _ _ c Hc).
  intros Habs. destruct (Hok c Habs Hr); contradiction.
Qed.

Lemma str_lower_from_In {rt : PyRuntime} (text : list Z) :
  forall (before : list Z) (x : Z),
    In x (str_lower_from before text) ->
    exists b c a, In c text /\ In x (lower_cp b c a).
Proof.
  induction text as [|c text IH]; intros before x; cbn [str_lower_from];
    [intros []|].
  rewrite in_app_iff. intros [H|H].
  - exists before, c, text. split; [left; reflexivity | assumption].
  - destruct (IH _ _ H) as (b & c' & a & Hc & Hx).
    exists b, c', a. split; [right; assumption | assumption].
Qed.

Lemma byte_to_char_None (b : Z) :
  byte_to_char b = None <->
  b <> 32 /\ ~ 65 <= b <= 90 /\ ~ 97 <= b <= 122.
Proof.
  destruct (byte_to_char_cases b)
    as [[H1 H2]|[[H1 H2]|[[H1 H2]|(H1 & H2 & H3 & H4)]]];
    rewrite ?H2, ?H4; split; intros H; try discriminate; try lia; tauto.
Qed.

(** The text decoded from bytes outside the alphabet, lowered, has no ASCII
    lower-case letter but possibly [i] and [k]. *)
Lemma lowered_text_letters {rt : PyRuntime} (text : list Z) :
  lower_table_ok ->
  (forall c, In c text -> c < 128 -> byte_to_char c = None) ->
  forall x, In x (str_lower text) -> 97 <= x <= 122 -> x = 105 \/ x = 107.
Proof.
  intros Hlow Htext x Hx Hr. unfold str_lower in Hx.
  destruct (str_lower_from_In _ _ _ Hx) as (b & c & a & Hc & Hin).
  unfold lower_cp in Hin.
  destruct ((65 <=? c) && (c <=? 90)) eqn:E1.
  - apply andb_true_iff in E1 as [H1 H2]. apply Z.leb_le in H1, H2.
    pose proof (Htext c Hc ltac:(lia)) as Hn.
    apply byte_to_char_None in Hn. lia.
  - destruct (Z.ltb_spec c 128) as [Hlt|Hge].
    + destruct Hin as [<-|[]].
      pose proof (Htext c Hc Hlt) as Hn. apply byte_to_char_None in Hn. lia.
    + eapply Hlow; eauto.
Qed.

(** ** Decoding *)

Lemma land_low_bits (a : Z) (n : Z) :
  0 <= n -> Z.land a (Z.ones n) = a mod 2 ^ n.
Proof. intros H; apply Z.land_ones; assumption. Qed.

Lemma cp2_ge_128 (c1 c2 : Z) : 194 <= c1 < 224 -> 128 <= cp2 c1 c2.
Proof.
  intros H. unfold cp2.
  assert (0 <= Z.land c2 63) by (apply Z.land_nonneg; right; lia).
  rewrite Z.shiftl_mul_pow2 by lia.
  change 31 with (Z.ones 5). rewrite land_low_bits by lia.
  change (2 ^ 5) with 32. change (2 ^ 6) with 64.
  pose proof (Z.div_mod c1 32 ltac:(lia)).
  pose proof (Z.mod_pos_bound c1 32 ltac:(lia)).
  lia.
Qed.

Lemma cp3_ge_128 (c1 c2 c3 : Z) :
  224 <= c1 < 240 -> 128 <= c2 <= 191 -> (c1 = 224 -> 160 <= c2) ->
  128 <= cp3 c1 c2 c3.
Proof.
  intros H1 H2 H3. unfold cp3.
  assert (0 <= Z.land c3 63) by (apply Z.land_nonneg; right; lia).
  rewrite !Z.shiftl_mul_pow2 by lia.
  change 15 with (Z.ones 4). change 63 with (Z.ones 6) at 1.
  rewrite !land_low_bits by lia.
  change (2 ^ 4) with 16. change (2 ^ 6) with 64. change (2 ^ 12) with 4096.
  pose proof (Z.div_mod c1 16 ltac:(lia)).
  pose proof (Z.mod_pos_bound c1 16 ltac:(lia)).
  pose proof (Z.div_mod c2 64 ltac:(lia)).
  pose proof (Z.mod_pos_bound c2 64 ltac:(lia)).
  lia.
Qed.

Lemma cp4_ge_128 (c1 c2 c3 c4 : Z) :
  240 <= c1 < 245 -> 128 <= c2 <= 191 -> (c1 = 240 -> 144 <= c2) ->
  128 <= cp4 c1 c2 c3 c4.
Proof.
  intros H1 H2 H3. unfold cp4.
  assert (0 <= Z.land c4 63) by (apply Z.land_nonneg; right; lia).
  assert (0 <= Z.land c3 63) by (apply Z.land_nonneg; right; lia).
  assert (0 <= Z.shiftl (Z.land c3 63) 6) by (apply Z.shiftl_nonneg; lia).
  rewrite (Z.shiftl_mul_pow2 _ 18), (Z.shiftl_mul_pow2 _ 12) by lia.
  change 7 with (Z.ones 3). change (Z.land c2 63) with (Z.land c2 (Z.ones 6)).
  rewrite !land_low_bits by lia.
  change (2 ^ 3) with 8. change (2 ^ 6) with 64.
  change (2 ^ 12) with 4096. change (2 ^ 18) with 262144.
  pose proof (Z.div_mod c1 8 ltac:(lia)).
  pose proof (Z.mod_pos_bound c1 8 ltac:(lia)).
  pose proof (Z.div_mod c2 64 ltac:(lia)).
  pose proof (Z.mod_pos_bound c2 64 ltac:(lia)).
  lia.
Qed.

Lemma is_cont_range (b : Z) : is_cont b = true -> 128 <= b <= 191.
Proof.
  unfold is_cont. rewrite andb_true_iff, !Z.leb_le. tauto.
Qed.

Lemma lead3_guard (ch ch2 : Z) :
  negb (is_cont ch2) || (if ch2 <? 160 then ch =? 224 else ch =? 237) = false ->
  128 <= ch2 <= 191 /\ (ch = 224 -> 160 <= ch2).
Proof.
  rewrite orb_false_iff, negb_false_iff. intros [Hc Hg].
  split; [apply is_cont_range; assumption|].
  intros ->. destruct (Z.ltb_spec ch2 160); [discriminate Hg | assumption].
Qed.

Lemma lead4_guard (ch ch2 : Z) :
  negb (is_cont ch2) || (if ch2 <? 144 then ch =? 240 else ch =? 244) = false ->
  128 <= ch2 <= 191 /\ (ch = 240 -> 144 <= ch2).
Proof.
  rewrite orb_false_iff, negb_false_iff. intros [Hc Hg].
  split; [apply is_cont_range; assumption|].
  intros ->. destruct (Z.ltb_spec ch2 144); [discriminate Hg | assumption].
Qed.

(** A code point of the decoded text is an ASCII byte of the input or is
    not ASCII. *)
Lemma utf8_decode_ignore_In (n : nat) :
  forall s : list Z, (length s <= n)%nat ->
    forall x, In x (utf8_decode_ignore s) -> (x < 128 /\ In x s) \/ 128 <= x.
Proof.
  induction n as [|n IH]; intros s Hlen x.
  - destruct s; [intros [] | cbn [length] in Hlen; lia].
  - assert (Hrec : forall r : list Z, (length r <= n)%nat ->
              (forall y, In y r -> In y s) ->
              In x (utf8_decode_ignore r) -> (x < 128 /\ In x s) \/ 128 <= x).
    { intros r Hr Hsub Hin.
      destruct (IH r Hr x Hin) as [[H1 H2]|H]; [left; auto | right; auto]. }
    destruct s as [|ch r1]; [intros []|].
    cbn [length] in Hlen. cbn [utf8_decode_ignore].
    destruct (Z.ltb_spec ch 128) as [H128|H128].
    { intros [<-|Hin]; [left; split; [lia | left; reflexivity]|].
      apply (Hrec r1); [lia | intros; right; assumption | assumption]. }
    destruct (Z.ltb_spec ch 194) as [H194|H194].
    { apply (Hrec r1); [lia | intros; right; assumption]. }
    destruct (Z.ltb_spec ch 224) as [H224|H224].
    { destruct r1 as [|ch2 r2]; [intros []|]. cbn [length] in Hlen.
      destruct (is_cont ch2).
      - intros [<-|Hin]; [right; apply cp2_ge_128; lia|].
        apply (Hrec r2); [lia | intros; right; right; assumption | assumption].
      - apply (Hrec (ch2 :: r2)); [cbn [length]; lia |].
        intros; right; assumption. }
    destruct (Z.ltb_spec ch 240) as [H240|H240].
    { destruct r1 as [|ch2 r2]; [intros []|]. cbn [length] in Hlen.
      destruct (negb (is_cont ch2) || _) eqn:G.
      - apply (Hrec (ch2 :: r2)); [cbn [length]; lia |].
        intros; right; assumption.
      - apply lead3_guard in G as [G1 G2].
        destruct r2 as [|ch3 r3]; [intros []|]. cbn [length] in Hlen.
        destruct (is_cont ch3).
        + intros [<-|Hin]; [right; apply cp3_ge_128; lia|].
          apply (Hrec r3); [lia | | assumption].
          intros; right; right; right; assumption.
        + apply (Hrec (ch3 :: r3)); [cbn [length]; lia |].
          intros; right; right; assumption. }
    destruct (Z.ltb_spec ch 245) as [H245|H245].
    { destruct r1 as [|ch2 r2]; [intros []|]. cbn [length] in Hlen.
      destruct (negb (is_cont ch2) || _) eqn:G.
      - apply (Hrec (ch2 :: r2)); [cbn [length]; lia |].
        intros; right; assumption.
      - apply lead4_guard in G as [G1 G2].
        destruct r2 as [|ch3 r3]; [intros []|]. cbn [length] in Hlen.
        destruct (is_cont ch3); cbn [negb].
        + destruct r3 as [|ch4 r4]; [intros []|]. cbn [length] in Hlen.
          destruct (is_cont ch4).
          * intros [<-|Hin]; [right; apply cp4_ge_128; lia|].
            apply (Hrec r4); [lia | | assumption].
            intros; right; right; right; right; assumption.
          * apply (Hrec (ch4 :: r4)); [cbn [length]; lia |].
            intros; right; right; right; assumption.
        + apply (Hrec (ch3 :: r3)); [cbn [length]; lia |].
          intros; right; right; assumption. }
    apply (Hrec r1); [lia | intros; right; assumption].
Qed.

(** ** Penalty dominance *)

Lemma ALPHABET_ranges :
  ALPHABET = 32 :: map Z.of_nat (seq 65 26) ++ map Z.of_nat (seq 97 26).
Proof. vm_compute; reflexivity. Qed.

Lemma In_ALPHABET (b : Z) : In b ALPHABET <-> byte_to_char b <> None.
Proof.
  rewrite ALPHABET_ranges. cbn [In]. rewrite in_app_iff, !in_map_iff.
  split.
  - intros H Hn. apply byte_to_char_None in Hn.
    destruct H as [H|[(n & <- & Hin)|(n & <- & Hin)]];
      [lia | apply in_seq in Hin; lia | apply in_seq in Hin; lia].
  - intros H.
    destruct (byte_to_char_cases b)
      as [[H1 _]|[[H1 _]|[[H1 _]|(_ & _ & _ & H4)]]];
      [left; auto | right; left | right; right | contradiction];
      exists (Z.to_nat b); (split; [lia | apply in_seq; lia]).
Qed.

Lemma logProb_ge_floor (logp : dict (string * string) R) (a c : string) :
  (forall k v, dict_get pair_eqb logp k = Some v -> (ln 1e-9 <= v)%R) ->
  (ln 1e-9 <= logProb logp a c)%R.
Proof.
  intros H. unfold logProb, dict_get_default.
  destruct (dict_get pair_eqb logp (a, c)) eqn:E; [eauto | lra].
Qed.

Lemma bigram_sum_cons (logp : dict (string * string) R)
    (x y : Z) (r : list Z) :
  bigram_sum logp (x :: y :: r)
  = (pair_term logp x y + bigram_sum logp (y :: r))%R.
Proof. reflexivity. Qed.

Lemma bigram_sum_outside (logp : dict (string * string) R) (t : list Z) :
  Forall (fun b => byte_to_char b = None) t ->
  bigram_sum logp t = (penalty * INR (length t - 1))%R.
Proof.
  induction 1 as [|x t Hx Ht IH]; [cbn; lra|].
  destruct t as [|y t]; [cbn; lra|].
  rewrite bigram_sum_cons, IH. unfold pair_term. rewrite Hx.
  replace (length (x :: y :: t) - 1)%nat with (S (length (y :: t) - 1))
    by (cbn [length]; lia).
  rewrite S_INR. lra.
Qed.

Lemma bigram_sum_inside (logp : dict (string * string) R) (s : list Z) :
  (forall k v, dict_get pair_eqb logp k = Some v -> (ln 1e-9 <= v)%R) ->
  Forall (fun b => byte_to_char b <> None) s ->
  (ln 1e-9 * INR (length s - 1) <= bigram_sum logp s)%R.
Proof.
  intros Hge. induction 1 as [|x s Hx Hs IH]; [cbn; lra|].
  destruct s as [|y s]; [cbn; lra|].
  rewrite bigram_sum_cons.
  replace (length (x :: y :: s) - 1)%nat with (S (length (y :: s) - 1))
    by (cbn [length]; lia).
  rewrite S_INR.
  assert (Hy : byte_to_char y <> None) by (inversion Hs; assumption).
  assert (Hp : (ln 1e-9 <= pair_term logp x y)%R).
  { unfold pair_term.
    destruct (byte_to_char x) as [a|]; [|contradiction].
    destruct (byte_to_char y) as [c|]; [|contradiction].
    apply logProb_ge_floor; assumption. }
  lra.
Qed.

(** The combined score of a sequence of bytes outside the alphabet is the
    penalty for each adjacent pair, with no bonus. *)
Lemma combined_score_outside {rt : PyRuntime}
    (logp : dict (string * string) R) (t : list Z) :
  lower_table_ok ->
  Forall (fun b => ~ In b ALPHABET) t ->
  combined_score t logp = (penalty * INR (length t - 1))%R.
Proof.
  intros Hlow Ht.
  assert (Hnone : Forall (fun b => byte_to_char b = None) t).
  { eapply Forall_impl; [|exact Ht]. cbn. intros b Hb.
    destruct (byte_to_char b) eqn:E; [|reflexivity].
    exfalso; apply Hb, In_ALPHABET; congruence. }
  unfold combined_score. rewrite score_bigram_sum, bigram_sum_outside by auto.
  rewrite word_bonus_zero; [cbn; lra|].
  apply lowered_text_letters; [assumption|].
  intros c Hc Hlt.
  destruct (utf8_decode_ignore_In (length t) t (le_n _) c Hc) as [[_ Hin]|Hge];
    [|lia].
  rewrite Forall_forall in Hnone; auto.
Qed.

Lemma combined_score_inside {rt : PyRuntime}
    (logp : dict (string * string) R) (s : list Z) :
  (forall k v, dict_get pair_eqb logp k = Some v -> (ln 1e-9 <= v)%R) ->
  Forall (fun b => In b ALPHABET) s ->
  (ln 1e-9 * INR (length s - 1) <= combined_score s logp)%R.
Proof.
  intros Hge Hs. unfold combined_score. rewrite score_bigram_sum.
  assert (Hb : (0 <= IZR (word_bonus_score (utf8_decode_ignore s)))%R)
    by (apply IZR_le, word_bonus_nonneg).
  assert (Hsum : (ln 1e-9 * INR (length s - 1) <= bigram_sum logp s)%R).
  { apply bigram_sum_inside; [assumption|].
    eapply Forall_impl; [|exact Hs]. cbn. intros b. apply In_ALPHABET. }
  lra.
Qed.

(** With a table loaded by [load_ftable] from cells with finite counts, in
    exact arithmetic, and lower-casing that turns no non-ASCII code point
    into an ASCII letter other than [i] and [k], a sequence of [k >= 2]
    bytes all outside the alphabet has a strictly lower combined score than
    a sequence of [k] bytes all inside it. *)
Lemma penalty_dominance {rt : PyRuntime}
    (rows : list (list string)) (logp : dict (string * string) R)
    (s t : list Z) :
  lower_table_ok ->
  load_ftable rows = OK logp ->
  length s = length t -> (2 <= length s)%nat ->
  Forall (fun b => In b ALPHABET) s ->
  Forall (fun b => ~ In b ALPHABET) t ->
  (combined_score t logp < combined_score s logp)%R.
Proof.
  intros Hlow Hload Hlen Hk Hs Ht.
  rewrite (combined_score_outside logp t Hlow Ht).
  pose proof (combined_score_inside logp s
                (load_ftable_values_ge_floor rows logp Hload) Hs) as Hin.
  rewrite <- Hlen.
  assert (Hn : (1 <= INR (length s - 1))%R).
  { replace 1%R with (INR 1) by reflexivity. apply le_INR. lia. }
  pose proof ln_floor_gt_penalty.
  nra.
Qed.

Lemma load_ftable_total {rt : PyRuntime} (rows : list (list string)) :
  table_shape_ok rows -> exists logp, load_ftable rows = OK logp.
Proof.
  intros Hshape. destruct rows as [|row0 data]; [contradiction|].
  destruct (store_rows_total (tl row0) data [] Hshape) as (counts & Hc).
  destruct (load_ftable_from_counts (row0 :: data) counts Hc) as (logp & E & _).
  eauto.
Qed.

Lemma demo_lower_table_ok : @lower_table_ok demo_runtime.
Proof.
  intros before c after x Hc Hin Hr. cbn in Hin. unfold demo_lower in Hin.
  destruct (c =? 304); [destruct Hin as [<-|[<-|[]]]; lia|].
  destruct (c =? 8490); [destruct Hin as [<-|[]]; lia|].
  destruct Hin as [<-|[]]; lia.
Qed.

Lemma penalty_dominance_witness :
  exists logp,
    @load_ftable demo_runtime demo_rows = OK logp /\
    (@combined_score demo_runtime [1; 200; 64]%Z logp
     < @combined_score demo_runtime [84; 104; 101]%Z logp)%R.
Proof.
  destruct (@load_ftable_total demo_runtime demo_rows) as (logp & Hl).
  { unfold table_shape_ok, demo_rows.
    repeat constructor; cbn; try discriminate; lia. }
  exists logp. split; [exact Hl|].
  apply (@penalty_dominance demo_runtime demo_rows logp
           [84; 104; 101] [1; 200; 64] demo_lower_table_ok Hl);
    [reflexivity | cbn; lia | |].
  - repeat constructor; rewrite ALPHABET_ranges; cbn; tauto.
  - repeat constructor; rewrite ALPHABET_ranges; cbn; intuition lia.
Defined.


(** ** Tables with an infinite count *)

Module IeeeFacts.
Import PrimFloat.

(** C6 (what the code does): for the table [,A,B / A,inf,1] the row total is
    [0.0 + inf + 1.0 = inf], the share of the first cell is [inf / inf], a
    NaN, and [max(nan, 1e-9)] keeps the NaN: the probability whose
    logarithm [load_ftable] stores under [("A", "A")] is not a number, and
    [math.log] of a NaN is a NaN, so the lookup of a stored pair returns a
    NaN.  The floor does clamp the second cell of the row. *)
Theorem stored_probability_is_nan :
  is_nan (Ieee.prob_of infinity (Ieee.row_total [infinity; 1%float])) = true /\
  Ieee.prob_of 1 (Ieee.row_total [infinity; 1%float]) = 1e-9%float.
Proof. split; reflexivity. Qed.

(** C8 (what the code does): with the NaN stored under [("A", "A")], the
    combined score of the alphabet bytes [b"AA"] is [(0.0 + nan) + 0], a
    NaN, the one of the non-alphabet bytes [b"11"] is [(0.0 - 100.0) + 0],
    and [-100.0 < nan] is false: the non-alphabet sequence does not score
    lower. *)
Theorem nan_entry_breaks_dominance :
  (Ieee.score_of_pair (-100) 0
   <? Ieee.score_of_pair
        (Ieee.prob_of infinity (Ieee.row_total [infinity; 1%float])) 0)%float
  = false /\
  is_nan (Ieee.score_of_pair
            (Ieee.prob_of infinity (Ieee.row_total [infinity; 1%float])) 0)
  = true.
Proof. split; reflexivity. Qed.
End IeeeFacts.

(** * Further properties of the code *)

(** ** xor_bytes *)

Lemma lxor_byte (a b : Z) : is_byte a -> is_byte b -> is_byte (Z.lxor a b).
Proof.
  unfold is_byte. intros Ha Hb.
  assert (H0 : 0 <= Z.lxor a b) by (apply Z.lxor_nonneg; lia).
  split; [assumption|].
  destruct (Z.eq_dec (Z.lxor a b) 0) as [->|Hne]; [lia|].
  change 256 with (2 ^ 8). apply Z.log2_lt_pow2; [lia|].
  pose proof (Z.log2_lxor a b ltac:(lia) ltac:(lia)) as Hl.
  assert (La : Z.log2 a < 8).
  { destruct (Z.eq_dec a 0) as [->|]; [cbn; lia|].
    apply Z.log2_lt_pow2; [lia | change (2 ^ 8) with 256; lia]. }
  assert (Lb : Z.log2 b < 8).
  { destruct (Z.eq_dec b 0) as [->|]; [cbn; lia|].
    apply Z.log2_lt_pow2; [lia | change (2 ^ 8) with 256; lia]. }
  lia.
Qed.

(** [bytes([...])] in [xor_bytes] never raises: the XOR of two byte strings
    is a byte string. *)
Theorem xor_bytes_is_bytes (b1 b2 : list Z) :
  is_bytes b1 -> is_bytes b2 -> is_bytes (xor_bytes b1 b2).
Proof.
  unfold is_bytes. intros H1; revert b2.
  induction H1 as [|a b1 Ha H1 IH]; intros [|b b2] H2;
    try (constructor; fail).
  rewrite xor_bytes_cons. inversion H2; subst.
  constructor; [apply lxor_byte; assumption | apply IH; assumption].
Qed.

Lemma xor_bytes_is_bytes_witness : is_bytes (xor_bytes [72; 255] [32; 1; 7]).
Proof.
  apply xor_bytes_is_bytes; repeat constructor; unfold is_byte; lia.
Defined.

Lemma xor_bytes_comm (b1 b2 : list Z) : xor_bytes b1 b2 = xor_bytes b2 b1.
Proof.
  revert b2; induction b1 as [|a b1 IH]; intros [|b b2]; try reflexivity.
  rewrite !xor_bytes_cons, Z.lxor_comm, IH. reflexivity.
Qed.

Lemma xor_bytes_key_cancels_helper (m1 m2 key : list Z) :
  length m1 = length key -> length m2 = length key ->
  xor_bytes (xor_bytes m1 key) (xor_bytes m2 key) = xor_bytes m1 m2.
Proof.
  revert m2 key; induction m1 as [|a m1 IH]; intros [|b m2] [|k key];
    cbn [length]; try discriminate; try reflexivity.
  intros [= H1] [= H2]. rewrite !xor_bytes_cons. f_equal; [|auto].
  rewrite (Z.lxor_comm b k), Z.lxor_assoc, <- (Z.lxor_assoc k k b).
  rewrite Z.lxor_nilpotent, Z.lxor_0_l. reflexivity.
Qed.

(** The pad cancels: two messages encrypted under the same key have the
    XOR of the messages as the XOR of their ciphertexts. *)
Theorem xor_bytes_key_cancels (m1 m2 key : list Z) :
  length m1 = length key -> length m2 = length key ->
  xor_bytes (xor_bytes m1 key) (xor_bytes m2 key) = xor_bytes m1 m2.
Proof.
  apply xor_bytes_key_cancels_helper.
Qed.

Lemma xor_bytes_key_cancels_witness :
  xor_bytes (xor_bytes [72; 105] [9; 200]) (xor_bytes [79; 75] [9; 200])
  = xor_bytes [72; 105] [79; 75].
Proof. apply xor_bytes_key_cancels; reflexivity. Defined.

Lemma xor_bytes_undo (p X : list Z) :
  length p = length X -> xor_bytes (xor_bytes p X) X = p.
Proof.
  intros Hlen. rewrite (xor_bytes_comm p X), xor_bytes_comm.
  apply xor_bytes_involutive. symmetry; assumption.
Qed.

(** The two plaintexts of a pair determine each other: XOR-ing the derived
    plaintext with the difference array gives the candidate back, and the
    derived plaintext has the candidate's length. *)
Theorem xor_bytes_twice (p X : list Z) :
  length p = length X ->
  xor_bytes (xor_bytes p X) X = p /\ length (xor_bytes p X) = length p.
Proof.
  intros Hlen. split.
  - apply xor_bytes_undo; assumption.
  - rewrite xor_bytes_length, Hlen. apply Nat.min_id.
Qed.

Lemma xor_bytes_twice_witness :
  xor_bytes (xor_bytes [32; 65] [1; 2]) [1; 2] = [32; 65] /\
  length (xor_bytes [32; 65] [1; 2]) = 2%nat.
Proof. apply xor_bytes_twice; reflexivity. Defined.

(** The objective is symmetric in the two plaintexts: a candidate and the
    plaintext derived from it score the same as a pair. *)
Theorem pair_score_symmetric {rt : PyRuntime}
    (p X : list Z) (logp : dict (string * string) R) :
  length p = length X ->
  pair_score (xor_bytes p X) X logp = pair_score p X logp.
Proof.
  intros Hlen. unfold pair_score.
  rewrite (xor_bytes_undo p X Hlen). lra.
Qed.

Lemma pair_score_symmetric_witness :
  @pair_score demo_runtime (xor_bytes [32; 65] [1; 2]) [1; 2] []
  = @pair_score demo_runtime [32; 65] [1; 2] [].
Proof. apply (@pair_score_symmetric demo_runtime); reflexivity. Defined.

(** ** load_ftable: failures, keys and cells *)

Section TableFacts.
Context {rt : PyRuntime}.
Variable header : list string.

Lemma store_cells_too_long (a : string) (cells : list string) :
  forall (counts : dict (string * string) R) (i : nat),
    (i <= length header)%nat ->
    (length header < i + length cells)%nat ->
    store_cells header a counts i cells = Error IndexError.
Proof.
  induction cells as [|v cells IH]; intros counts i Hi Hlen;
    cbn [store_cells length] in *.
  - lia.
  - destruct (nth_error header i) as [b|] eqn:Hb.
    + rewrite (store_cell_in_range _ _ _ _ _ _ Hb); cbn [bind].
      assert (i < length header)%nat
        by (apply nth_error_Some; congruence).
      apply IH; lia.
    + rewrite (store_cell_out_of_range _ _ _ _ _ Hb); reflexivity.
Qed.

Lemma store_rows_bad_shape (rows : list (list string)) :
  forall counts : dict (string * string) R,
    ~ Forall (fun r => r <> [] /\ (length (tl r) <= length header)%nat) rows ->
    store_rows header counts rows = Error IndexError.
Proof.
  induction rows as [|r rows IH]; intros counts Hbad; cbn [store_rows].
  - exfalso; apply Hbad; constructor.
  - destruct r as [|r0 cells]; [reflexivity|]. cbn [store_row].
    destruct (Nat.le_gt_cases (length cells) (length header)) as [Hle|Hgt].
    + destruct (store_cells_total header (str_strip r0) cells counts 0 Hle)
        as (c1 & ->). cbn [bind]. apply IH.
      intros Hall. apply Hbad. constructor; [|assumption].
      split; [discriminate | exact Hle].
    + rewrite store_cells_too_long by (cbn; lia). reflexivity.
Qed.

Lemma dict_set_keys_iff (d : dict (string * string) R)
    (k0 k : string * string) (v : R) :
  In k (map fst (dict_set pair_eqb d k0 v)) <-> k = k0 \/ In k (map fst d).
Proof.
  destruct (dict_get pair_eqb d k0) eqn:E.
  - apply (dict_get_Some_In pair_eqb pair_eqb_eq) in E.
    assert (Hin : In k0 (map fst d))
      by (apply in_map_iff; exists (k0, r); auto).
    rewrite (dict_set_keys_present pair_eqb pair_eqb_eq) by assumption.
    split; [tauto | intros [->|?]; assumption].
  - apply (dict_get_None pair_eqb pair_eqb_eq) in E.
    rewrite (dict_set_keys_absent pair_eqb pair_eqb_eq) by assumption.
    rewrite in_app_iff. cbn [In]. split; [intros [?|[<-|[]]] | intros [->|?]];
      auto.
Qed.

Lemma store_cells_keys (a : string) (cells : list string) :
  forall (counts counts' : dict (string * string) R) (i : nat),
    store_cells header a counts i cells = OK counts' ->
    forall k, In k (map fst counts') <->
      In k (map fst counts) \/
      exists j b, (j < length cells)%nat /\
        nth_error header (i + j) = Some b /\ k = (a, b).
Proof.
  induction cells as [|v cells IH]; intros counts counts' i;
    cbn [store_cells length].
  - intros [= <-] k. split; [tauto|].
    intros [H|(j & b & Hj & _)]; [assumption | lia].
  - destruct (nth_error header i) as [b|] eqn:Hb.
    + rewrite (store_cell_in_range _ _ _ _ _ _ Hb); cbn [bind].
      intros H k. rewrite (IH _ _ _ H k), dict_set_keys_iff. split.
      * intros [[->|Hin]|(j & b' & Hj & Hn & ->)]; [right | left | right].
        -- exists 0%nat, b. rewrite Nat.add_0_r. repeat split; auto; lia.
        -- assumption.
        -- exists (S j), b'. rewrite Nat.add_succ_r. repeat split; auto; lia.
      * intros [Hin|(j & b' & Hj & Hn & ->)]; [left; right; assumption|].
        destruct j as [|j].
        -- rewrite Nat.add_0_r, Hb in Hn. injection Hn as <-.
           left; left; reflexivity.
        -- right. exists j, b'. rewrite Nat.add_succ_r in Hn.
           repeat split; auto; lia.
    + rewrite (store_cell_out_of_range _ _ _ _ _ Hb); discriminate.
Qed.

Lemma store_rows_keys (rows : list (list string)) :
  forall (counts counts' : dict (string * string) R),
    store_rows header counts rows = OK counts' ->
    forall k, In k (map fst counts') <->
      In k (map fst counts) \/
      exists r j b, In r rows /\ (j < length (tl r))%nat /\
        nth_error header j = Some b /\ k = (row_key r, b).
Proof.
  induction rows as [|r rows IH]; intros counts counts'; cbn [store_rows].
  - intros [= <-] k. split; [tauto|].
    intros [H|(r & _ & _ & [] & _)]; assumption.
  - destruct (store_row header counts r) as [c1|] eqn:E; cbn [bind];
      [|discriminate].
    destruct r as [|r0 cells]; [discriminate|]. cbn [store_row] in E.
    intros H k. rewrite (IH _ _ H k), (store_cells_keys _ _ _ _ _ E k).
    cbn [Nat.add]. split.
    + intros [[Hin|(j & b & Hj & Hn & ->)]|(r & j & b & Hr & Hj & Hn & ->)].
      * left; assumption.
      * right. exists (r0 :: cells), j, b. cbn. auto.
      * right. exists r, j, b. cbn [In]. auto.
    + intros [Hin|(r & j & b & [<-|Hr] & Hj & Hn & ->)].
      * left; left; assumption.
      * left; right. exists j, b. cbn in *. auto.
      * right. exists r, j, b. auto.
Qed.

Lemma store_cells_get_other (a : string) (cells : list string)
    (k : string * string) :
  forall (counts counts' : dict (string * string) R) (i : nat),
    store_cells header a counts i cells = OK counts' ->
    (forall j b, (j < length cells)%nat ->
       nth_error header (i + j) = Some b -> k <> (a, b)) ->
    dict_get pair_eqb counts' k = dict_get pair_eqb counts k.
Proof.
  induction cells as [|v cells IH]; intros counts counts' i;
    cbn [store_cells length].
  - intros [= <-] _; reflexivity.
  - destruct (nth_error header i) as [b|] eqn:Hb.
    + rewrite (store_cell_in_range _ _ _ _ _ _ Hb); cbn [bind].
      intros H Hother. rewrite (IH _ _ _ H).
      * apply (dict_get_set_other pair_eqb pair_eqb_eq).
        apply (Hother 0%nat b); [lia | rewrite Nat.add_0_r; assumption].
      * intros j b' Hj Hn. apply (Hother (S j) b'); [lia|].
        rewrite Nat.add_succ_r; assumption.
    + rewrite (store_cell_out_of_range _ _ _ _ _ Hb); discriminate.
Qed.

Lemma store_cells_get_written (a : string) (cells : list string) :
  NoDup header ->
  forall (counts counts' : dict (string * string) R) (i j : nat)
         (v b : string),
    store_cells header a counts i cells = OK counts' ->
    nth_error cells j = Some v -> nth_error header (i + j) = Some b ->
    dict_get pair_eqb counts' (a, b) = Some (cell_count v).
Proof.
  intros Hnd.
  induction cells as [|v0 cells IH]; intros counts counts' i j v b;
    cbn [store_cells].
  - destruct j; discriminate.
  - destruct (nth_error header i) as [b0|] eqn:Hb0.
    + rewrite (store_cell_in_range _ _ _ _ _ _ Hb0); cbn [bind].
      intros H Hv Hb. destruct j as [|j]; cbn [nth_error] in Hv.
      * injection Hv as ->. rewrite Nat.add_0_r, Hb0 in Hb.
        injection Hb as ->.
        rewrite (store_cells_get_other _ _ _ _ _ _ H).
        -- apply (dict_get_set_same pair_eqb pair_eqb_eq).
        -- intros j b' Hj Hn [= <-].
           assert (i = S i + j)%nat; [|lia].
           apply (proj1 (NoDup_nth_error header) Hnd);
             [apply nth_error_Some; congruence | congruence].
      * apply (IH _ _ (S i) j v b H Hv).
        rewrite Nat.add_succ_r in Hb; assumption.
    + rewrite (store_cell_out_of_range _ _ _ _ _ Hb0); discriminate.
Qed.

Lemma store_rows_get_other (rows : list (list string))
    (k : string * string) :
  forall (counts counts' : dict (string * string) R),
    store_rows header counts rows = OK counts' ->
    (forall r, In r rows -> fst k <> row_key r) ->
    dict_get pair_eqb counts' k = dict_get pair_eqb counts k.
Proof.
  induction rows as [|r rows IH]; intros counts counts'; cbn [store_rows].
  - intros [= <-] _; reflexivity.
  - destruct (store_row header counts r) as [c1|] eqn:E; cbn [bind];
      [|discriminate].
    destruct r as [|r0 cells]; [discriminate|]. cbn [store_row] in E.
    intros H Hother. rewrite (IH _ _ H).
    + apply (store_cells_get_other _ _ _ _ _ _ E).
      intros j b _ _ ->. apply (Hother (r0 :: cells)); [left|]; reflexivity.
    + intros r Hr. apply Hother; right; assumption.
Qed.

Lemma store_rows_get_written (rows : list (list string)) :
  NoDup header -> NoDup (map row_key rows) ->
  forall (counts counts' : dict (string * string) R)
         (r : list string) (j : nat) (v b : string),
    store_rows header counts rows = OK counts' ->
    In r rows -> nth_error (tl r) j = Some v -> nth_error header j = Some b ->
    dict_get pair_eqb counts' (row_key r, b) = Some (cell_count v).
Proof.
  intros Hnd.
  induction rows as [|r1 rows IH]; intros Hrows counts counts' r j v b;
    cbn [store_rows]; [intros _ []|].
  cbn [map] in Hrows. inversion Hrows as [|? ? Hfresh Hrows']; subst.
  destruct (store_row header counts r1) as [c1|] eqn:E; cbn [bind];
    [|discriminate].
  intros H [<-|Hr] Hv Hb.
  - destruct r1 as [|r0 cells]; [discriminate|]. cbn [store_row tl] in *.
    rewrite (store_rows_get_other _ _ _ _ H).
    + apply (store_cells_get_written _ _ Hnd _ _ 0%nat j v b E Hv Hb).
    + intros r Hr Heq. apply Hfresh. cbn [fst] in Heq.
      change (str_strip r0) with (row_key (r0 :: cells)). rewrite Heq.
      apply in_map; assumption.
  - apply (IH Hrows' _ _ r j v b H Hr Hv Hb).
Qed.
End TableFacts.

Lemma dict_set_absent_app (d : dict (string * string) R)
    (k : string * string) (v : R) :
  ~ In k (map fst d) -> dict_set pair_eqb d k v = d ++ [(k, v)].
Proof.
  induction d as [|[k' v'] d IH]; cbn [dict_set map In app]; [reflexivity|].
  intros Hn. rewrite pair_eqb_neq by (intros ->; apply Hn; left; reflexivity).
  rewrite IH by tauto. reflexivity.
Qed.

Lemma skipn_cons_nth {A : Type} (l : list A) :
  forall (i : nat) (x : A) (rest : list A),
    skipn i l = x :: rest ->
    nth_error l i = Some x /\ skipn (S i) l = rest.
Proof.
  induction l as [|a l IH]; intros [|i] x rest; cbn [skipn nth_error];
    try discriminate.
  - intros [= -> ->]; split; reflexivity.
  - intros H. apply IH in H. exact H.
Qed.

Section TableItems.
Context {rt : PyRuntime}.
Variable header : list string.

Lemma store_cells_appends (a : string) (cells : list string) :
  forall (counts : dict (string * string) R) (i : nat) (hs : list string),
    skipn i header = hs -> (length cells <= length hs)%nat -> NoDup hs ->
    (forall b, In b hs -> ~ In (a, b) (map fst counts)) ->
    store_cells header a counts i cells
    = OK (counts ++ map (fun bv => ((a, fst bv), cell_count (snd bv)))
                      (zip hs cells)).
Proof.
  induction cells as [|v cells IH]; intros counts i hs Hsk Hlen Hnd Hfresh;
    cbn [store_cells].
  - destruct hs; cbn [zip map]; rewrite app_nil_r; reflexivity.
  - destruct hs as [|b rest]; [cbn in Hlen; lia|].
    destruct (skipn_cons_nth _ _ _ _ Hsk) as [Hb Hsk'].
    rewrite (store_cell_in_range _ _ _ _ _ _ Hb); cbn [bind].
    rewrite dict_set_absent_app by (apply Hfresh; left; reflexivity).
    apply NoDup_cons_iff in Hnd as [Hb' Hnd'].
    rewrite (IH _ (S i) rest Hsk' ltac:(cbn in Hlen; lia) Hnd').
    + cbn [zip map fst snd]. rewrite <- app_assoc. reflexivity.
    + intros b' Hin. rewrite map_app, in_app_iff. cbn [map In fst].
      intros [H|[[= ->]|[]]]; [|contradiction].
      revert H. apply Hfresh; right; assumption.
Qed.

Lemma row_items_keys (r : list string) (k : string * string) :
  In k (map fst (row_items header r)) ->
  fst k = row_key r /\ In (snd k) header.
Proof.
  unfold row_items. rewrite map_map. cbn [fst].
  intros H. apply in_map_iff in H as ([b v] & <- & Hin). cbn [fst snd].
  split; [reflexivity|].
  clear -Hin. revert Hin. generalize (tl r) as cells.
  induction header as [|h hs IH]; intros [|c cells]; cbn [zip In];
    try tauto.
  intros [[= <- _]|H]; [left; reflexivity | right; eauto].
Qed.

Lemma store_rows_appends (rows : list (list string)) :
  NoDup header ->
  forall counts : dict (string * string) R,
    Forall (fun r => r <> [] /\ (length (tl r) <= length header)%nat) rows ->
    NoDup (map row_key rows) ->
    (forall r k, In r rows -> In k (map fst counts) -> fst k <> row_key r) ->
    store_rows header counts rows = OK (counts ++ table_items header rows).
Proof.
  intros Hnd.
  induction rows as [|r rows IH]; intros counts Hshape Hkeys Hfresh;
    cbn [store_rows table_items flat_map].
  - rewrite app_nil_r; reflexivity.
  - inversion Hshape as [|? ? [Hne Hlen] Hshape']; subst.
    cbn [map] in Hkeys. inversion Hkeys as [|? ? Hk Hkeys']; subst.
    destruct r as [|r0 cells]; [contradiction|]. cbn [store_row tl] in *.
    pose proof (store_cells_appends (str_strip r0) cells counts 0%nat header
                  eq_refl Hlen Hnd) as Hs.
    change (map _ (zip header cells))
      with (row_items header (r0 :: cells)) in Hs.
    rewrite Hs.
    + cbn [bind].
      rewrite IH; [rewrite <- app_assoc; reflexivity | assumption.. |].
      intros r k Hr. rewrite map_app, in_app_iff. intros [Hin|Hin].
      * apply Hfresh; [right|]; assumption.
      * apply row_items_keys in Hin as [-> _].
        intros Heq. apply Hk. rewrite Heq. apply in_map; assumption.
    + intros b _ Hin.
      apply (Hfresh (r0 :: cells) (str_strip r0, b)); [left| |];
        auto.
Qed.

Lemma row_total_app (l1 l2 : dict (string * string) R) (a : string) :
  row_total (l1 ++ l2) a = (row_total l1 a + row_total l2 a)%R.
Proof.
  induction l1 as [|[k v] l1 IH]; cbn [app row_total]; [lra|].
  rewrite IH. destruct (String.eqb (fst k) a); lra.
Qed.

Lemma row_total_same_row (r : list string) :
  (length (tl r) <= length header)%nat ->
  row_total (row_items header r) (row_key r) = cells_sum (tl r).
Proof.
  unfold row_items. generalize (row_key r) as a. generalize (tl r) as cells.
  induction header as [|h hs IH]; intros [|c cells] a; cbn [length];
    try reflexivity; [lia|].
  intros Hlen. cbn [zip map row_total fst snd cells_sum fold_right].
  rewrite String.eqb_refl, IH by lia. reflexivity.
Qed.

Lemma row_total_other_row (r : list string) (a : string) :
  a <> row_key r -> row_total (row_items header r) a = 0%R.
Proof.
  unfold row_items. generalize (tl r) as cells. intros cells Hne.
  revert cells.
  induction header as [|h hs IH]; intros [|c cells];
    cbn [zip map row_total fst snd]; try reflexivity.
  rewrite (proj2 (String.eqb_neq _ _)) by congruence. apply IH.
Qed.

Lemma row_total_table (rows : list (list string)) (r : list string) :
  NoDup (map row_key rows) -> In r rows ->
  (length (tl r) <= length header)%nat ->
  row_total (table_items header rows) (row_key r) = cells_sum (tl r).
Proof.
  induction rows as [|r1 rows IH]; [intros _ []|].
  cbn [map]. intros Hnd Hin Hlen. inversion Hnd as [|? ? Hk Hnd']; subst.
  unfold table_items. cbn [flat_map]. rewrite row_total_app.
  fold (table_items header rows).
  destruct Hin as [->|Hin].
  - rewrite row_total_same_row by assumption.
    assert (Hz : forall l, ~ In (row_key r) (map row_key l) ->
                   row_total (table_items header l) (row_key r) = 0%R).
    { induction l as [|x l IHl]; [reflexivity|].
      cbn [map In]. intros Hn. unfold table_items. cbn [flat_map].
      rewrite row_total_app. fold (table_items header l).
      rewrite row_total_other_row
        by (intros E; apply Hn; left; symmetry; exact E).
      rewrite IHl by tauto. lra. }
    rewrite Hz by assumption. lra.
  - rewrite row_total_other_row, IH by
      (try assumption; intros Heq; apply Hk; rewrite <- Heq;
       apply in_map; assumption).
    lra.
Qed.
End TableItems.

(** [load_ftable] returns a table exactly when the rows have the shape of a
    table (a header row, no empty data row, no data row with more count
    cells than the header has columns); on any other input it raises
    [IndexError], whatever the cells hold. *)
Theorem load_ftable_succeeds_iff_shape {rt : PyRuntime}
    (rows : list (list string)) :
  (table_shape_ok rows <-> exists logp, load_ftable rows = OK logp) /\
  (~ table_shape_ok rows -> load_ftable rows = Error IndexError).
Proof.
  assert (Hbad : ~ table_shape_ok rows -> load_ftable rows = Error IndexError).
  { intros Hn. unfold load_ftable, build_counts.
    destruct rows as [|row0 data]; [reflexivity|].
    rewrite store_rows_bad_shape by exact Hn. reflexivity. }
  split; [|exact Hbad]. split; [apply load_ftable_total|].
  intros (logp & Hl).
  assert (Hdec : table_shape_ok rows \/ ~ table_shape_ok rows).
  { destruct rows as [|row0 data]; [right; intros []|]. cbn.
    assert (Pdec : forall r : list string,
              {r <> [] /\ (length (tl r) <= length (tl row0))%nat} +
              {~ (r <> [] /\ (length (tl r) <= length (tl row0))%nat)}).
    { intros [|r0 cells].
      - right; intros [H _]; apply H; reflexivity.
      - destruct (le_dec (length (tl (r0 :: cells))) (length (tl row0)));
          [left; split; [discriminate | assumption] | right; tauto]. }
    destruct (Forall_dec _ Pdec data); [left | right]; assumption. }
  destruct Hdec as [H|H]; [assumption|].
  rewrite (Hbad H) in Hl; discriminate.
Qed.

Lemma load_ftable_succeeds_iff_shape_witness :
  @load_ftable demo_runtime [[""; "A"]; ["A"; "1"; "2"]]%string
  = Error IndexError.
Proof.
  apply (proj2 (@load_ftable_succeeds_iff_shape demo_runtime _)).
  cbn. intros H. inversion H as [|? ? [_ Hlen] _]. cbn in Hlen. lia.
Defined.

(** The keys of the loaded table are the pairs (row character, column
    character) of the cells of the data rows: the stripped first cell of a
    row with the header cell above the count. *)
Theorem load_ftable_keys {rt : PyRuntime}
    (rows : list (list string)) (logp : dict (string * string) R) :
  load_ftable rows = OK logp ->
  forall a b : string,
    In (a, b) (map fst logp) <->
    exists r j, In r (tl rows) /\ (j < length (tl r))%nat /\
      nth_error (tl (hd [] rows)) j = Some b /\ a = str_strip (hd ""%string r).
Proof.
  intros Hl a b. pose proof Hl as Hl'. unfold load_ftable in Hl'.
  destruct (build_counts rows) as [counts|] eqn:Hc; cbn [bind] in Hl';
    [|discriminate].
  destruct (load_ftable_from_counts rows counts Hc) as (logp' & E & Hk & _).
  rewrite E in Hl; injection Hl as ->. rewrite Hk.
  unfold build_counts in Hc. destruct rows as [|row0 data]; [discriminate|].
  cbn [tl hd]. rewrite (store_rows_keys _ _ _ _ Hc (a, b)). cbn [map In].
  split.
  - intros [[]|(r & j & b' & Hr & Hj & Hn & [= -> ->])]. eauto 6.
  - intros (r & j & Hr & Hj & Hn & ->). right. exists r, j, b. auto.
Qed.

Lemma load_ftable_keys_witness :
  exists logp, @load_ftable demo_runtime demo_rows = OK logp /\
    In ("B", "A")%string (map fst logp).
Proof.
  destruct (@load_ftable_total demo_runtime demo_rows) as (logp & Hl).
  { unfold table_shape_ok, demo_rows.
    repeat constructor; cbn; try discriminate; lia. }
  exists logp. split; [exact Hl|].
  apply (proj2 (@load_ftable_keys demo_runtime demo_rows logp Hl "B" "A")%string).
  exists ["B"; "x"; "0"]%string, 0%nat. cbn. repeat split; auto; lia.
Defined.



(** ** Scoring: case and locality *)

Lemma byte_to_char_to_upper (x : Z) :
  byte_to_char (to_upper x) = byte_to_char x.
Proof.
  unfold to_upper.
  destruct ((97 <=? x) && (x <=? 122)) eqn:E; [|reflexivity].
  apply andb_true_iff in E as [H1 H2]. apply Z.leb_le in H1, H2.
  unfold byte_to_char.
  destruct (Z.eqb_spec (x - 32) 32); [lia|].
  destruct (Z.eqb_spec x 32); [lia|].
  replace ((65 <=? x - 32) && (x - 32 <=? 90)) with true
    by (symmetry; apply andb_true_iff; split; apply Z.leb_le; lia).
  replace ((65 <=? x) && (x <=? 90)) with false
    by (symmetry; apply andb_false_iff; right; apply Z.leb_gt; lia).
  replace ((97 <=? x) && (x <=? 122)) with true
    by (symmetry; apply andb_true_iff; split; apply Z.leb_le; lia).
  reflexivity.
Qed.

Lemma bigram_sum_to_upper (logp : dict (string * string) R) (b : list Z) :
  bigram_sum logp (map to_upper b) = bigram_sum logp b.
Proof.
  induction b as [|x b IH]; [reflexivity|].
  destruct b as [|y b]; [reflexivity|].
  cbn [map] in *. rewrite !bigram_sum_cons, IH.
  unfold pair_term. rewrite !byte_to_char_to_upper. reflexivity.
Qed.

(** The bigram score does not see letter case: replacing every lower-case
    letter by its upper-case form leaves the score unchanged. *)
Theorem score_bigram_case_insensitive
    (b : list Z) (logp : dict (string * string) R) :
  score_bigram (map to_upper b) logp = score_bigram b logp.
Proof.
  rewrite !score_bigram_sum. apply bigram_sum_to_upper.
Qed.

Lemma list_set_nth_other {A : Type} (l : list A) :
  forall (i j : nat) (v d : A),
    j <> i -> nth j (list_set l i v) d = nth j l d.
Proof.
  induction l as [|a l IH]; intros [|i] [|j] v d Hne; cbn [list_set nth];
    try reflexivity; try contradiction.
  apply IH. intros ->; apply Hne; reflexivity.
Qed.

(** Replacing the byte at position [i] leaves the loop of [score_bigram]
    with the same number of turns and with the same term at every turn but
    those of indices [i - 1] and [i], the two that read the replaced
    byte. *)
Theorem score_bigram_single_byte_change
    (logp : dict (string * string) R) (p : list Z) (i : nat) (v : Z) :
  seq 0 (length (list_set p i v) - 1) = seq 0 (length p - 1) /\
  forall j : nat,
    j <> i -> S j <> i ->
    bigram_term logp (list_set p i v) j = bigram_term logp p j.
Proof.
  split; [rewrite list_set_length; reflexivity|].
  intros j H1 H2. unfold bigram_term.
  rewrite !list_set_nth_other by lia. reflexivity.
Qed.

Lemma score_bigram_single_byte_change_witness :
  bigram_term [] (list_set [84; 72; 69; 33] 0 32) 2
  = bigram_term [] [84; 72; 69; 33] 2.
Proof.
  apply (proj2 (score_bigram_single_byte_change [] [84; 72; 69; 33] 0 32));
    lia.
Defined.

(** ** The word bonus and decoding *)

Lemma starts_with_app (w t : list Z) : starts_with w (w ++ t) = true.
Proof.
  induction w as [|c w IH]; cbn [starts_with app]; [reflexivity|].
  rewrite Z.eqb_refl, IH. reflexivity.
Qed.

Lemma count_from_occurs (w pre post : list Z) :
  w <> [] -> 1 <= count_from w 0 (pre ++ w ++ post).
Proof.
  intros Hw. induction pre as [|d pre IH]; cbn [app].
  - destruct w as [|c w]; [contradiction|]. cbn [app count_from].
    change (c :: w ++ post) with ((c :: w) ++ post).
    rewrite starts_with_app.
    pose proof (count_from_nonneg (c :: w) (w ++ post)
                  (length (c :: w) - 1)). lia.
  - cbn [count_from]. destruct (starts_with w (d :: pre ++ w ++ post));
      [|exact IH].
    pose proof (count_from_nonneg w (pre ++ w ++ post) (length w - 1)). lia.
Qed.

Lemma bonus_fold_shape (text : list Z) (ws : list (list Z)) :
  forall acc : Z,
    exists n, 0 <= n /\
      fold_left (fun bonus word => bonus + str_count text word * 10000) ws acc
      = acc + 10000 * n /\
      forall w, In w ws -> str_count text w <= n.
Proof.
  induction ws as [|w ws IH]; intros acc; cbn [fold_left].
  - exists 0. repeat split; [lia | lia | intros ? []].
  - destruct (IH (acc + str_count text w * 10000)) as (n & Hn & E & Hle).
    pose proof (str_count_nonneg text w).
    exists (str_count text w + n). repeat split; [lia | lia |].
    intros w' [<-|Hin]; [lia|]. specialize (Hle w' Hin). lia.
Qed.

(** The word bonus is a non-negative multiple of 10000, and it is at least
    10000 as soon as a common word occurs anywhere in the lowered text,
    inside a longer word or not. *)
Theorem word_bonus_counts_substrings {rt : PyRuntime} (text : list Z) :
  (exists n, 0 <= n /\ word_bonus_score text = 10000 * n) /\
  (forall w pre post,
     In w COMMON_WORDS -> str_lower text = pre ++ w ++ post ->
     10000 <= word_bonus_score text).
Proof.
  unfold word_bonus_score.
  destruct (bonus_fold_shape (str_lower text) COMMON_WORDS 0)
    as (n & Hn & E & Hle).
  split; [exists n; split; [assumption | rewrite E; lia]|].
  intros w pre post Hw Htext. rewrite E.
  specialize (Hle w Hw). rewrite Htext in Hle.
  assert (Hne : w <> []).
  { pose proof common_words_letters as Hl. rewrite Forall_forall in Hl.
    destruct (Hl w Hw) as (c & Hc & _). intros ->; destruct Hc. }
  unfold str_count in Hle. destruct w as [|c w]; [contradiction|].
  pose proof (count_from_occurs (c :: w) pre post Hne). lia.
Qed.

Lemma word_bonus_counts_substrings_witness :
  10000 <= @word_bonus_score demo_runtime (codes "There").
Proof.
  apply (proj2 (@word_bonus_counts_substrings demo_runtime (codes "There"))
           (codes "the") [] (codes "re")).
  - left; reflexivity.
  - reflexivity.
Defined.

Lemma utf8_decode_ignore_ascii (b : list Z) :
  Forall is_ascii b -> utf8_decode_ignore b = b.
Proof.
  induction 1 as [|c b Hc _ IH]; cbn [utf8_decode_ignore]; [reflexivity|].
  destruct (Z.ltb_spec c 128); [rewrite IH; reflexivity|].
  unfold is_ascii in Hc; lia.
Qed.

Lemma str_lower_from_ascii {rt : PyRuntime} (text : list Z) :
  Forall is_ascii text ->
  forall before, str_lower_from before text = map to_lower text.
Proof.
  induction 1 as [|c text Hc _ IH]; intros before;
    cbn [str_lower_from map]; [reflexivity|].
  rewrite IH. unfold lower_cp, to_lower.
  destruct ((65 <=? c) && (c <=? 90)); [reflexivity|].
  destruct (Z.ltb_spec c 128); [reflexivity | unfold is_ascii in Hc; lia].
Qed.

(** On ASCII bytes decoding is the identity and lower-casing maps [A-Z] to
    [a-z] byte by byte, whatever the runtime does with other code points:
    text keeps its length and its non-letters. *)
Theorem ascii_text_decodes_and_lowers {rt : PyRuntime} (b : list Z) :
  Forall is_ascii b ->
  utf8_decode_ignore b = b /\
  str_lower (utf8_decode_ignore b) = map to_lower b.
Proof.
  intros H. rewrite utf8_decode_ignore_ascii by assumption.
  split; [reflexivity | apply str_lower_from_ascii; assumption].
Qed.

Lemma ascii_text_decodes_and_lowers_witness :
  utf8_decode_ignore [84; 104; 33] = [84; 104; 33] /\
  @str_lower demo_runtime (utf8_decode_ignore [84; 104; 33])
  = map to_lower [84; 104; 33].
Proof.
  apply (@ascii_text_decodes_and_lowers demo_runtime).
  repeat constructor; unfold is_ascii; lia.
Defined.

Lemma to_lower_to_upper (c : Z) : to_lower (to_upper c) = to_lower c.
Proof.
  unfold to_lower, to_upper.
  destruct (Z.leb_spec 97 c), (Z.leb_spec c 122); cbn [andb];
    repeat match goal with
           | |- context [(?a <=? ?b)] => destruct (Z.leb_spec a b)
           end; cbn [andb]; lia.
Qed.

Lemma to_upper_ascii (c : Z) : is_ascii c -> is_ascii (to_upper c).
Proof.
  unfold is_ascii, to_upper.
  destruct (Z.leb_spec 97 c), (Z.leb_spec c 122); cbn [andb]; lia.
Qed.

(** The combined score of an ASCII byte sequence does not see letter case:
    bigram terms and word occurrences are both taken case-insensitively. *)
Theorem combined_score_case_insensitive {rt : PyRuntime}
    (b : list Z) (logp : dict (string * string) R) :
  Forall is_ascii b ->
  combined_score (map to_upper b) logp = combined_score b logp.
Proof.
  intros Hb. unfold combined_score.
  assert (Hu : Forall is_ascii (map to_upper b)).
  { apply Forall_map. eapply Forall_impl; [|exact Hb].
    intros c. apply to_upper_ascii. }
  rewrite score_bigram_sum, bigram_sum_to_upper, <- score_bigram_sum.
  unfold word_bonus_score, str_lower.
  rewrite !utf8_decode_ignore_ascii by assumption.
  rewrite !str_lower_from_ascii by assumption.
  rewrite map_map.
  rewrite (map_ext (fun x => to_lower (to_upper x)) to_lower
             to_lower_to_upper b).
  reflexivity.
Qed.

Lemma combined_score_case_insensitive_witness :
  @combined_score demo_runtime (map to_upper [116; 104; 101; 32; 65]) []
  = @combined_score demo_runtime [116; 104; 101; 32; 65] [].
Proof.
  apply (@combined_score_case_insensitive demo_runtime).
  repeat constructor; unfold is_ascii; lia.
Defined.

(** ** The search: what the states hold *)

Lemma list_set_Forall {A : Type} (P : A -> Prop) (l : list A) :
  forall (n : nat) (v : A), Forall P l -> P v -> Forall P (list_set l n v).
Proof.
  induction l as [|a l IH]; intros [|n] v Hl Hv; cbn [list_set];
    inversion Hl; subst; constructor; auto.
Qed.

Lemma spaces_in_alphabet (n : nat) : in_alphabet (repeat 32 n).
Proof.
  unfold in_alphabet. induction n as [|n IH]; cbn [repeat]; constructor;
    [|exact IH].
  apply In_ALPHABET. discriminate.
Qed.

Section Consistency.
Context {rt : PyRuntime}.
Variable X : list Z.
Variable logp : dict (string * string) R.

Lemma accept_candidate (g : rng) (p : list Z) (st : climb_state) :
  length p = length X -> in_alphabet p ->
  candidate_consistent X logp (accept X g p (pair_score p X logp) st).
Proof.
  intros Hlen Hal. unfold accept.
  destruct (Rlt_dec (best_score (run st)) (pair_score p X logp));
    repeat split; assumption.
Qed.

Lemma accept_best (g : rng) (p : list Z) (st : climb_state) :
  length p = length X -> in_alphabet p ->
  best_consistent X logp (run st) ->
  best_consistent X logp (run (accept X g p (pair_score p X logp) st)).
Proof.
  intros Hlen Hal Hb. unfold accept.
  destruct (Rlt_dec (best_score (run st)) (pair_score p X logp)).
  - right. cbn. repeat split; assumption.
  - exact Hb.
Qed.

Lemma iteration_consistent (iterations it : nat) (st st' : climb_state) :
  candidate_consistent X logp st ->
  iteration X logp iterations it st = OK st' ->
  candidate_consistent X logp st' /\
  (best_consistent X logp (run st) -> best_consistent X logp (run st')).
Proof.
  intros (Hlen & Hal & Hcur) H.
  assert (HX : X = [] \/ X <> [])
    by (destruct X; [left; reflexivity | right; discriminate]).
  destruct HX as [HX|HX];
    [rewrite iteration_empty in H by assumption; discriminate|].
  destruct (iteration_cases X logp iterations it st HX Hlen)
    as (i & c & old & Hc). cbv zeta in Hc.
  destruct Hc as (_ & Hi & Hch & _ & Ha & Hb & Hr).
  apply choice_In in Hch as [Hc _].
  set (p' := list_set (p1 st) (Z.to_nat i) c) in *.
  assert (Hp' : length p' = length X)
    by (unfold p'; rewrite list_set_length; assumption).
  assert (Hal' : in_alphabet p')
    by (apply list_set_Forall; assumption).
  destruct (Rle_dec 0 (pair_score p' X logp - cur_score st)) as [Hd|Hd].
  - rewrite (Ha Hd) in H. injection H as <-.
    split; [apply accept_candidate | intros Hbest; apply accept_best]; auto.
  - match type of Hb with
    | _ -> (?u < ?e)%R -> _ => destruct (Rlt_dec u e) as [Hu|Hu]
    end.
    + rewrite (Hb Hd Hu) in H. injection H as <-.
      split; [apply accept_candidate | intros Hbest; apply accept_best]; auto.
    + rewrite (Hr Hd Hu) in H. injection H as <-.
      split; [repeat split; assumption | intros Hbest; exact Hbest].
Qed.

Lemma climb_consistent_loop (iterations n start : nat)
    (st st' : climb_state) :
  candidate_consistent X logp st ->
  for_range (iteration X logp iterations) start n st = OK st' ->
  candidate_consistent X logp st' /\
  (best_consistent X logp (run st) -> best_consistent X logp (run st')).
Proof.
  intros Hinv H.
  apply (for_range_rel (iteration X logp iterations)
           (fun a b => best_consistent X logp (run a) ->
                       best_consistent X logp (run b))
           (candidate_consistent X logp)) with (n := n) (start := start);
    auto.
  intros i s s' Hs E. eapply iteration_consistent; eauto.
Qed.

Lemma begin_restart_consistent (rs : run_state) :
  candidate_consistent X logp (begin_restart X logp rs).
Proof.
  repeat split; [apply repeat_length | apply spaces_in_alphabet].
Qed.

Lemma run_consistent (iterations n start : nat) (rs rs' : run_state) :
  best_consistent X logp rs ->
  for_range (restart X logp iterations) start n rs = OK rs' ->
  best_consistent X logp rs'.
Proof.
  intros Hb H.
  apply (for_range_rel (restart X logp iterations)
           (fun _ _ => True) (best_consistent X logp))
    with (n := n) (start := start) (s := rs); auto.
  intros i s s' Hs E; split; [|exact I].
  unfold restart in E.
  destruct (for_range (iteration X logp iterations) _ _ _) as [st|] eqn:El;
    cbn [bind] in E; [|discriminate].
  injection E as <-.
  apply (proj2 (climb_consistent_loop _ _ _ _ _
                  (begin_restart_consistent s) El) Hs).
Qed.
End Consistency.

(** Whatever [hillclimb] returns other than the placeholder is a candidate
    of alphabet bytes of the length of [X], the plaintext derived from it,
    and the combined score of exactly that pair. *)
Theorem hillclimb_returns_scored_pair {rt : PyRuntime}
    (X : list Z) (logp : dict (string * string) R)
    (restarts iterations : nat) (g : rng) (q1 q2 : list Z) (sc : R) :
  hillclimb X logp restarts iterations g = OK ((q1, q2), sc) ->
  (sc = initial_best_score /\ q1 = [] /\ q2 = []) \/
  (length q1 = length X /\ in_alphabet q1 /\ q2 = xor_bytes q1 X /\
   sc = (combined_score q1 logp + combined_score q2 logp)%R).
Proof.
  intros H. unfold hillclimb in H.
  destruct (for_range _ 0 restarts (initial_run g)) as [rs|] eqn:E;
    cbn [bind] in H; [|discriminate].
  injection H as Hp Hs.
  assert (H0 : best_consistent X logp (initial_run g))
    by (left; split; reflexivity).
  destruct (run_consistent X logp _ _ _ _ _ H0 E)
    as [[H1 H2]|(H1 & H2 & H3 & H4)].
  - left. rewrite Hp in H2. injection H2 as -> ->. subst sc. auto.
  - right. rewrite Hp in H1, H2, H3, H4. cbn [fst snd] in *.
    subst sc q2. repeat split; assumption.
Qed.

Lemma hillclimb_returns_scored_pair_witness :
  exists q1 q2 sc,
    @hillclimb demo_runtime [1; 2; 3] [] 2 3 demo_rng = OK ((q1, q2), sc) /\
    ((sc = initial_best_score /\ q1 = [] /\ q2 = []) \/
     (length q1 = 3%nat /\ in_alphabet q1 /\ q2 = xor_bytes q1 [1; 2; 3] /\
      sc = (@combined_score demo_runtime q1 []
            + @combined_score demo_runtime q2 [])%R)).
Proof.
  destruct (@hillclimb_total demo_runtime [1; 2; 3] [] 2 3 demo_rng
              ltac:(discriminate)) as [[[q1 q2] sc] H].
  exists q1, q2, sc. split; [exact H|].
  exact (@hillclimb_returns_scored_pair demo_runtime [1; 2; 3] [] 2 3
           demo_rng q1 q2 sc H).
Defined.

(** Inside a restart the current score is always the score of the current
    candidate, which has the length of [X] and only alphabet bytes: a
    rejected mutation is undone exactly. *)
Theorem current_score_tracks_candidate {rt : PyRuntime}
    (X : list Z) (logp : dict (string * string) R)
    (iterations n : nat) (rs : run_state) (st : climb_state) :
  for_range (iteration X logp iterations) 0 n (begin_restart X logp rs)
  = OK st ->
  cur_score st = pair_score (p1 st) X logp /\
  length (p1 st) = length X /\ in_alphabet (p1 st).
Proof.
  intros H.
  destruct (climb_consistent_loop X logp _ _ _ _ _
              (begin_restart_consistent X logp rs) H)
    as ((H1 & H2 & H3) & _).
  auto.
Qed.

Lemma current_score_tracks_candidate_witness :
  exists st,
    for_range (@iteration demo_runtime [1; 2; 3] [] 3) 0 2
      (@begin_restart demo_runtime [1; 2; 3] [] (initial_run demo_rng))
    = OK st /\
    cur_score st = @pair_score demo_runtime (p1 st) [1; 2; 3] [].
Proof.
  destruct (@climb_total demo_runtime [1; 2; 3] [] 3 2 0
              (@begin_restart demo_runtime [1; 2; 3] []
                 (initial_run demo_rng))
              ltac:(discriminate)
              (begin_restart_inv _ _ _ (initial_run_ok _ _)))
    as (st & H & _).
  exists st. split; [exact H|].
  exact (proj1 (@current_score_tracks_candidate demo_runtime
                  [1; 2; 3] [] 3 2 (initial_run demo_rng) st H)).
Defined.

(** ** The search: when it raises, what it draws *)

Lemma restart_zero_iterations {rt : PyRuntime}
    (X : list Z) (logp : dict (string * string) R) (n start : nat)
    (rs : run_state) :
  for_range (restart X logp 0) start n rs = OK rs.
Proof.
  revert start; induction n as [|n IH]; intros start; cbn [for_range];
    [reflexivity|].
  unfold restart at 1. cbn [for_range bind begin_restart run]. apply IH.
Qed.

(** [hillclimb] raises exactly when [X] is empty and both counts are
    positive, and then it raises [ValueError]; with no restart or no
    iteration it returns the placeholder pair [(b"", b"")] with score -1e18,
    the all-space start never being recorded. *)
Theorem hillclimb_raises_iff_empty {rt : PyRuntime}
    (X : list Z) (logp : dict (string * string) R)
    (restarts iterations : nat) (g : rng) :
  ((exists e, hillclimb X logp restarts iterations g = Error e) <->
   X = [] /\ (0 < restarts)%nat /\ (0 < iterations)%nat) /\
  (forall e, hillclimb X logp restarts iterations g = Error e ->
             e = ValueError) /\
  (restarts = 0%nat \/ iterations = 0%nat ->
   hillclimb X logp restarts iterations g
   = OK (([], []), initial_best_score)).
Proof.
  assert (Hzero : restarts = 0%nat \/ iterations = 0%nat ->
            hillclimb X logp restarts iterations g
            = OK (([], []), initial_best_score)).
  { intros [-> | ->]; unfold hillclimb; [reflexivity|].
    rewrite restart_zero_iterations. reflexivity. }
  assert (Hempty : X = [] -> (0 < restarts)%nat -> (0 < iterations)%nat ->
            hillclimb X logp restarts iterations g = Error ValueError).
  { intros -> Hr Hi.
    destruct restarts as [|r]; [lia|]. destruct iterations as [|i]; [lia|].
    reflexivity. }
  assert (Hcases : (X = [] /\ (0 < restarts)%nat /\ (0 < iterations)%nat) \/
                   (exists res, hillclimb X logp restarts iterations g
                                = OK res)).
  { destruct X as [|x X'] eqn:EX.
    - destruct restarts as [|r]; [right; eexists; apply Hzero; auto|].
      destruct iterations as [|i]; [right; eexists; apply Hzero; auto|].
      left; repeat split; lia.
    - right. apply hillclimb_total. discriminate. }
  split; [split | split].
  - intros (e & He). destruct Hcases as [H|(res & Hres)]; [exact H|].
    rewrite Hres in He; discriminate.
  - intros (HX & Hr & Hi). exists ValueError. apply Hempty; assumption.
  - intros e He. destruct Hcases as [(HX & Hr & Hi)|(res & Hres)].
    + rewrite (Hempty HX Hr Hi) in He. injection He as <-; reflexivity.
    + rewrite Hres in He; discriminate.
  - exact Hzero.
Qed.

Lemma hillclimb_raises_iff_empty_witness :
  @hillclimb demo_runtime [1; 2; 3] [] 5 0 demo_rng
  = OK (([], []), initial_best_score).
Proof.
  apply (proj2 (proj2 (@hillclimb_raises_iff_empty demo_runtime
                         [1; 2; 3] [] 5 0 demo_rng))).
  right; reflexivity.
Defined.

(** The cooling schedule: during a run the temperature stays in
    [[0.01, 1]], so it is never zero, and it never rises from one
    iteration to the next. *)
Theorem temperature_cools (iterations it it' : nat) :
  (it <= it')%nat -> (it' < iterations)%nat ->
  (0.01 <= temperature it' iterations <= temperature it iterations)%R /\
  (temperature it iterations <= 1)%R.
Proof.
  intros Hle Hlt.
  assert (HI : (0 < INR iterations)%R) by (apply lt_0_INR; lia).
  assert (Hq : (INR it / INR iterations <= INR it' / INR iterations)%R).
  { unfold Rdiv. apply Rmult_le_compat_r;
      [left; apply Rinv_0_lt_compat; assumption | apply le_INR; assumption]. }
  assert (Hq0 : (0 <= INR it / INR iterations)%R).
  { unfold Rdiv. apply Rmult_le_pos;
      [apply pos_INR | left; apply Rinv_0_lt_compat; assumption]. }
  unfold temperature. repeat split.
  - apply Rmax_l.
  - apply Rmax_lub; [apply Rmax_l|].
    eapply Rle_trans; [|apply Rmax_r]. lra.
  - apply Rmax_lub; lra.
Qed.

Lemma temperature_cools_witness :
  (0.01 <= temperature 2999 3000 <= temperature 0 3000)%R.
Proof.
  apply (temperature_cools 3000 0 2999); lia.
Defined.

Lemma advanced_trans (a b c d : nat) (g1 g2 g3 : rng) :
  advanced a b g1 g2 -> advanced c d g2 g3 -> advanced (a + c) (b + d) g1 g3.
Proof.
  unfold advanced. intros [E1 H1] [E2 H2]. split; [congruence | lia].
Qed.

Section Draws.
Context {rt : PyRuntime}.
Variable X : list Z.
Variable logp : dict (string * string) R.

Lemma iteration_advanced (iterations it : nat) (st st' : climb_state) :
  candidate_consistent X logp st ->
  iteration X logp iterations it st = OK st' ->
  advanced 2 3 (gen (run st)) (gen (run st')).
Proof.
  intros (Hlen & _ & _) H.
  assert (HX : X = [] \/ X <> [])
    by (destruct X; [left; reflexivity | right; discriminate]).
  destruct HX as [HX|HX];
    [rewrite iteration_empty in H by assumption; discriminate|].
  destruct (iteration_cases X logp iterations it st HX Hlen)
    as (i & c & old & Hc). cbv zeta in Hc.
  destruct Hc as (_ & _ & _ & _ & Ha & Hb & Hr).
  set (p' := list_set (p1 st) (Z.to_nat i) c) in *.
  destruct (Rle_dec 0 (pair_score p' X logp - cur_score st)) as [Hd|Hd].
  - rewrite (Ha Hd) in H. injection H as <-.
    match goal with |- context [accept X ?g ?p ?n ?s] =>
      destruct (accept_fields X g p n s) as (_ & _ & -> & _) end.
    unfold advanced; cbn [src pos]. split; [reflexivity | lia].
  - match type of Hb with
    | _ -> (?u < ?e)%R -> _ => destruct (Rlt_dec u e) as [Hu|Hu]
    end.
    + rewrite (Hb Hd Hu) in H. injection H as <-.
      match goal with |- context [accept X ?g ?p ?n ?s] =>
        destruct (accept_fields X g p n s) as (_ & _ & -> & _) end.
      unfold advanced, random, next_raw; cbn [src pos snd].
      split; [reflexivity | lia].
    + rewrite (Hr Hd Hu) in H. injection H as <-.
      unfold advanced, random, next_raw; cbn [src pos snd gen run].
      split; [reflexivity | lia].
Qed.

Lemma climb_advanced (iterations n : nat) :
  forall (start : nat) (st st' : climb_state),
    candidate_consistent X logp st ->
    for_range (iteration X logp iterations) start n st = OK st' ->
    advanced (2 * n) (3 * n) (gen (run st)) (gen (run st')).
Proof.
  induction n as [|n IH]; intros start st st' Hinv; cbn [for_range].
  - intros [= <-]. unfold advanced; split; [reflexivity | lia].
  - destruct (iteration X logp iterations start st) as [s1|] eqn:E;
      cbn [bind]; [|discriminate].
    intros H.
    pose proof (iteration_advanced _ _ _ _ Hinv E) as H1.
    destruct (iteration_consistent X logp _ _ _ _ Hinv E) as [Hinv1 _].
    pose proof (IH _ _ _ Hinv1 H) as H2.
    replace (2 * S n)%nat with (2 + 2 * n)%nat by lia.
    replace (3 * S n)%nat with (3 + 3 * n)%nat by lia.
    eapply advanced_trans; eauto.
Qed.

Lemma run_advanced (iterations n : nat) :
  forall (start : nat) (rs rs' : run_state),
    for_range (restart X logp iterations) start n rs = OK rs' ->
    advanced (2 * (n * iterations)) (3 * (n * iterations)) (gen rs) (gen rs').
Proof.
  induction n as [|n IH]; intros start rs rs'; cbn [for_range].
  - intros [= <-]. unfold advanced; split; [reflexivity | lia].
  - destruct (restart X logp iterations start rs) as [r1|] eqn:E;
      cbn [bind]; [|discriminate].
    intros H. unfold restart in E.
    destruct (for_range (iteration X logp iterations) _ _ _) as [st|] eqn:El;
      cbn [bind] in E; [|discriminate].
    injection E as <-.
    pose proof (climb_advanced _ _ _ _ _
                  (begin_restart_consistent X logp rs) El) as H1.
    cbn [begin_restart run] in H1.
    pose proof (IH _ _ _ H) as H2.
    replace (2 * (S n * iterations))%nat
      with (2 * iterations + 2 * (n * iterations))%nat by lia.
    replace (3 * (S n * iterations))%nat
      with (3 * iterations + 3 * (n * iterations))%nat by lia.
    eapply advanced_trans; eauto.
Qed.
End Draws.

(** A run of [restarts] restarts of [iterations] iterations draws at least
    two and at most three random values per iteration, and nothing else:
    [random()] is drawn only for a worsening move. *)
Theorem hillclimb_random_draws {rt : PyRuntime}
    (X : list Z) (logp : dict (string * string) R)
    (restarts iterations : nat) (g : rng) (rs : run_state) :
  for_range (restart X logp iterations) 0 restarts (initial_run g) = OK rs ->
  src (gen rs) = src g /\
  (pos g + 2 * (restarts * iterations) <= pos (gen rs)
   <= pos g + 3 * (restarts * iterations))%nat.
Proof.
  intros H. exact (run_advanced X logp iterations restarts 0 _ _ H).
Qed.

Lemma hillclimb_random_draws_witness :
  exists rs,
    for_range (@restart demo_runtime [1; 2; 3] [] 3) 0 2 (initial_run demo_rng)
    = OK rs /\
    (12 <= pos (gen rs) <= 18)%nat.
Proof.
  destruct (@run_total demo_runtime [1; 2; 3] [] 3 2 0 (initial_run demo_rng)
              ltac:(discriminate) (initial_run_ok _ _)) as (rs & H & _).
  exists rs. split; [exact H|].
  exact (proj2 (@hillclimb_random_draws demo_runtime [1; 2; 3] [] 2 3
                  demo_rng rs H)).
Defined.

(** ** The driver *)

Lemma halves_length (data : list Z) :
  length data = 2048%nat ->
  length (firstn 1024 data) = 1024%nat /\ length (skipn 1024 data) = 1024%nat.
Proof.
  intros H. rewrite length_firstn, length_skipn, H. split.
  - apply Nat.min_l. apply Nat.leb_le. vm_compute. reflexivity.
  - apply Nat.eqb_eq. vm_compute. reflexivity.
Qed.

Lemma difference_array_length (data : list Z) :
  length data = 2048%nat -> length (difference_array data) = 1024%nat.
Proof.
  intros H. destruct (halves_length data H) as [H1 H2].
  unfold difference_array. rewrite xor_bytes_length, H1, H2.
  apply Nat.min_id.
Qed.

(** The driver stops on the assertion unless the input has 2048 bytes; on
    a 2048-byte input it never reaches [exit(1)] (the two halves always
    have equal length), fails with [IndexError] on a frequency table of
    the wrong shape, and otherwise finishes the search, with a pair of two
    1024-byte plaintexts whose XOR is the XOR of the two ciphertext halves
    (or the placeholder, if no move was ever accepted). *)
Theorem main_outcomes {rt : PyRuntime}
    (data : list Z) (rows : list (list string)) (g : rng) :
  (length data <> 2048%nat -> main data rows g = AssertionFailed) /\
  (length data = 2048%nat -> ~ table_shape_ok rows ->
   main data rows g = Raised IndexError) /\
  (length data = 2048%nat -> table_shape_ok rows ->
   exists q1 q2 sc, main data rows g = Done ((q1, q2), sc) /\
     ((sc = initial_best_score /\ q1 = [] /\ q2 = []) \/
      (length q1 = 1024%nat /\ length q2 = 1024%nat /\
       xor_bytes q1 q2 = difference_array data))) /\
  (forall code, main data rows g <> Exit code).
Proof.
  assert (Hhalves : length data = 2048%nat ->
            (length (firstn 1024 data) =? length (skipn 1024 data))%nat
            = true).
  { intros H. destruct (halves_length data H) as [-> ->].
    apply Nat.eqb_refl. }
  unfold main.
  destruct (Nat.eqb_spec (length data) 2048) as [Hlen|Hlen]; cbn [negb].
  - rewrite (Hhalves Hlen); cbn [negb].
    fold (difference_array data).
    split; [intros H; contradiction|]. split; [|split].
    + intros _ Hbad.
      unfold load_ftable, build_counts.
      destruct rows as [|row0 rest]; [reflexivity|].
      rewrite store_rows_bad_shape by exact Hbad. reflexivity.
    + intros _ Hshape.
      destruct (load_ftable_total rows Hshape) as (logp & ->).
      assert (HX : difference_array data <> []).
      { intros E. pose proof (difference_array_length data Hlen) as Hl.
        rewrite E in Hl. discriminate Hl. }
      unfold hillclimb.
      destruct (run_total (difference_array data) logp 3000 20 0
                  (initial_run g) HX (initial_run_ok _ g))
        as (rs & -> & Hok).
      cbn [bind]. destruct (best_pair rs) as [q1 q2] eqn:Ep.
      exists q1, q2, (best_score rs). split; [reflexivity|].
      destruct Hok as [[H1 H2]|(H1 & H2 & H3 & H4)].
      * left. rewrite Ep in H2. injection H2 as -> ->. auto.
      * right. rewrite Ep in H2, H3, H4. cbn [fst snd] in *.
        rewrite (difference_array_length data Hlen) in H2, H3. auto.
    + intros code.
      destruct (load_ftable rows) as [logp|e]; [|discriminate].
      destruct (hillclimb _ _ _ _ _); discriminate.
  - split; [reflexivity|]. split; [intros H; contradiction|].
    split; [intros H; contradiction | discriminate].
Qed.

Lemma main_outcomes_witness :
  @main demo_runtime [1; 2; 3] demo_rows demo_rng = AssertionFailed.
Proof.
  apply (proj1 (@main_outcomes demo_runtime [1; 2; 3] demo_rows demo_rng)).
  cbn [length]. intros H. discriminate H.
Defined.

(** When the two halves of the input are two 1024-byte messages encrypted
    with the same pad, the difference array the driver hands to the search
    is the XOR of the two messages: the pad has cancelled. *)
Theorem difference_array_is_plaintext_xor (m1 m2 key : list Z) :
  length m1 = 1024%nat -> length m2 = 1024%nat -> length key = 1024%nat ->
  difference_array (xor_bytes m1 key ++ xor_bytes m2 key) = xor_bytes m1 m2.
Proof.
  intros H1 H2 Hk. unfold difference_array.
  assert (L1 : length (xor_bytes m1 key) = 1024%nat)
    by (rewrite xor_bytes_length, H1, Hk; apply Nat.min_id).
  rewrite <- L1 at 1 2.
  rewrite firstn_app, firstn_all, Nat.sub_diag, firstn_O, app_nil_r.
  rewrite skipn_app, skipn_all, Nat.sub_diag, skipn_O, app_nil_l.
  apply xor_bytes_key_cancels_helper; congruence.
Qed.

Lemma difference_array_is_plaintext_xor_witness :
  difference_array (xor_bytes (repeat 72 1024) (repeat 7 1024)
                    ++ xor_bytes (repeat 32 1024) (repeat 7 1024))
  = xor_bytes (repeat 72 1024) (repeat 32 1024).
Proof.
  apply difference_array_is_plaintext_xor; apply repeat_length.
Defined.
